(** * Guardini: a Redis-backed rate limiter

    Verification development for [index.ts] (the [Guardini] class) and the
    Lua script [guardini.lua] that the class loads into Redis.

    The script is embedded as a function in a small state monad over the
    Redis hash stored at the counter key; every [redis.call] is a monadic
    primitive that also appends itself to a command log.  The class is
    embedded as a tree of asynchronous requests whose continuations are the
    callbacks of the source.

    Numbers.  Lua numbers are doubles.  The model uses [Z]: it covers
    integer-valued timestamps, weights, thresholds, durations and precisions
    whose magnitude stays below 10^14, where [math.floor (a / b)] and
    [math.ceil (a / b)] are the exact integer quotients for [b <> 0] and
    where Lua's number-to-string coercion prints plain decimal digits.  A
    precision of 0 makes the script divide by zero (inf and nan), which [Z]
    does not follow; [tier_ok] names the tiers with positive duration and
    precision. *)

From Stdlib Require Import Ascii.
From stdpp Require Import gmap strings pretty list fin_maps.

Open Scope Z_scope.

(** ** Redis hash commands used by the script *)

Inductive command : Type :=
  | HGET (key field : string)
  | HDEL (key : string) (fields : list string)
  | HINCRBY (key field : string) (delta : Z)
  | HSET (key field : string) (value : Z)
  | EXPIRE (key : string) (seconds : Z).

(** The value stored at one key: the fields of the hash, the time to live
    of the key (if one was set), and the commands received so far. *)
Record redis : Type := Redis {
  hash : gmap string Z;
  expiry : option Z;
  calls : list command
}.

Definition fresh : redis := Redis ∅ None [].

Definition script (A : Type) : Type := redis → A * redis.

#[global] Instance script_ret : MRet script := λ A a s, (a, s).
#[global] Instance script_bind : MBind script :=
  λ A B f m s, let '(a, s') := m s in f a s'.

(** [redis.call('HGET', key, field)]: a missing field reads as [false]. *)
Definition hget (key field : string) : script (option Z) :=
  λ s, (hash s !! field,
        Redis (hash s) (expiry s) (calls s ++ [HGET key field])).

(** [redis.call('HDEL', key, unpack(fields))]: a hash left without fields
    is removed from the keyspace, and its time to live with it. *)
Definition hdel (key : string) (fields : list string) : script unit :=
  λ s, let h := foldr delete (hash s) fields in
       (tt, Redis h (if decide (h = ∅) then None else expiry s)
                  (calls s ++ [HDEL key fields])).

(** [redis.call('HINCRBY', key, field, delta)]: a missing field counts as 0;
    the reply is the new value. *)
Definition hincrby (key field : string) (delta : Z) : script Z :=
  λ s, let v := default 0 (hash s !! field) + delta in
       (v, Redis (<[field := v]> (hash s)) (expiry s)
                 (calls s ++ [HINCRBY key field delta])).

(** [redis.call('HSET', key, field, value)] *)
Definition hset (key field : string) (value : Z) : script unit :=
  λ s, (tt, Redis (<[field := value]> (hash s)) (expiry s)
                  (calls s ++ [HSET key field value])).

(** [redis.call('EXPIRE', key, seconds)]: no effect on a missing key. *)
Definition expire (key : string) (seconds : Z) : script unit :=
  λ s, (tt, Redis (hash s)
                  (if decide (hash s = ∅) then expiry s else Some seconds)
                  (calls s ++ [EXPIRE key seconds])).

(** ** Tiers *)

(** One entry of [limits]: [{duration, threshold, precision?}], that is
    [limit[1]], [limit[2]] and the optional [limit[3]]. *)
Record tier : Type := Tier {
  duration : Z;
  threshold : Z;
  limit3 : option Z
}.

#[global] Instance tier_eq_dec : EqDecision tier.
Proof. solve_decision. Defined.

(** [precision = math.min(limit[3] or duration, duration)] *)
Definition precision (t : tier) : Z :=
  Z.min (default (duration t) (limit3 t)) (duration t).

(** [math.ceil(a / b)] for integers and [b <> 0]. *)
Definition ceil_div (a b : Z) : Z := - ((- a) `div` b).

(** [blocks = math.ceil(duration / precision)] *)
Definition blocks (t : tier) : Z := ceil_div (duration t) (precision t).

(** [saved.block_id = math.floor(now / precision)] *)
Definition block_id (t : tier) (now : Z) : Z := now `div` precision t.

(** [saved.trim_before = saved.block_id - blocks + 1] *)
Definition trim_before (t : tier) (now : Z) : Z :=
  block_id t now - blocks t + 1.

(** [saved.count_key = duration .. ':' .. precision .. ':'] *)
Definition count_key (t : tier) : string :=
  pretty (duration t) +:+ ":" +:+ pretty (precision t) +:+ ":".

(** [saved.ts_key = saved.count_key .. 'o'] *)
Definition ts_key (t : tier) : string := count_key t +:+ "o".

(** [saved.count_key .. block], the field of one bucket. *)
Definition bucket_key (t : tier) (block : Z) : string :=
  count_key t +:+ pretty block.

Definition tier_ok (t : tier) : Prop :=
  0 < duration t ∧ ∀ p, limit3 t = Some p → 0 < p.

#[global] Instance tier_ok_dec t : Decision (tier_ok t).
Proof.
  unfold tier_ok. destruct (limit3 t) as [p|].
  - destruct (decide (0 < duration t ∧ 0 < p)) as [H|H].
    + left. split; [tauto|]. intros ? [= <-]. tauto.
    + right. intros [? Hp]. apply H. split; [done|]. by apply Hp.
  - destruct (decide (0 < duration t)) as [H|H].
    + left. split; [done|]. intros ? [=].
    + right. intros [? _]. done.
Defined.

(** ** The script [guardini.lua] *)

(** The table [saved] that the first loop appends to [saved_keys]. *)
Record saved : Type := Saved {
  saved_block_id : Z;
  saved_trim_before : Z;
  saved_count_key : string;
  saved_ts_key : string
}.

Definition save (t : tier) (now : Z) : saved :=
  Saved (block_id t now) (trim_before t now) (count_key t) (ts_key t).

(** What running the script yields: the integer it returns, or a Lua
    runtime error (an error reply of the script call). *)
Inductive reply : Type :=
  | Return (n : Z)
  | LuaError.

#[global] Instance reply_eq_dec : EqDecision reply.
Proof. solve_decision. Defined.

(** The inner loop [for old_block = old_ts, trim - 1 do ... end] over the
    blocks still to visit; it accumulates [decr] and [dele]. *)
Fixpoint scan (key : string) (sv : saved) (old_blocks : list Z)
    (decr : Z) (dele : list string) : script (Z * list string) :=
  match old_blocks with
  | [] => mret (decr, dele)
  | old_block :: rest =>
      let bkey := saved_count_key sv +:+ pretty old_block in
      bcount ← hget key bkey;
      match bcount with
      | Some c => scan key sv rest (decr + c) (dele ++ [bkey])
      | None => scan key sv rest decr dele
      end
  end.

(** The body of the first loop for one [limit]: [inl n] stands for
    [return n], [inr sv] for falling through to the next iteration. *)
Definition check_limit (key : string) (now weight : Z) (t : tier)
    : script (Z + saved) :=
  let sv := save t now in
  stored ← hget key (saved_ts_key sv);
  let old_ts := default (saved_trim_before sv) stored in
  if bool_decide (old_ts > now) then mret (inl 1)
  else
    let trim := Z.min (saved_trim_before sv) (old_ts + blocks t) in
    '(decr, dele) ← scan key sv (seqZ old_ts (trim - old_ts)) 0 [];
    cur ← (if bool_decide (0 < length dele)%nat
           then (_ ← hdel key dele;
                 n ← hincrby key (saved_count_key sv) (- decr);
                 mret (Some n))
           else hget key (saved_count_key sv));
    if bool_decide (default 0 cur + weight > threshold t)
    then mret (inl 1)
    else mret (inr sv).

(** The first loop, [for i, limit in ipairs(limits)]: cleanup and limit
    checks.  It threads [longest_duration] and [saved_keys]. *)
Fixpoint check_limits (key : string) (now weight : Z) (limits : list tier)
    (longest_duration : Z) (saved_keys : list saved)
    : script (Z + Z * list saved) :=
  match limits with
  | [] => mret (inr (longest_duration, saved_keys))
  | limit :: rest =>
      r ← check_limit key now weight limit;
      match r with
      | inl n => mret (inl n)
      | inr sv =>
          check_limits key now weight rest
            (Z.max longest_duration (duration limit)) (saved_keys ++ [sv])
      end
  end.

(** The second loop: update the timestamp, the count and the bucket count
    of every saved entry. *)
Fixpoint update_counts (key : string) (weight : Z) (saved_keys : list saved)
    : script unit :=
  match saved_keys with
  | [] => mret tt
  | sv :: rest =>
      _ ← hset key (saved_ts_key sv) (saved_trim_before sv);
      _ ← hincrby key (saved_count_key sv) weight;
      _ ← hincrby key (saved_count_key sv +:+ pretty (saved_block_id sv)) weight;
      update_counts key weight rest
  end.

(** The whole script.  [limits[1][1]] indexes [limits[1]], which is [nil]
    for an empty list: the script stops with a runtime error there. *)
Definition overLimitCheck (key : string) (limits : list tier)
    (now weight : Z) : script reply :=
  match limits with
  | [] => mret LuaError
  | first :: _ =>
      r ← check_limits key now weight limits (duration first) [];
      match r with
      | inl n => mret (Return n)
      | inr (longest_duration, saved_keys) =>
          _ ← update_counts key weight saved_keys;
          _ ← (if bool_decide (longest_duration > 0)
               then expire key longest_duration
               else mret tt);
          mret (Return 0)
      end
  end.

(** ** Reading the hash: what the script sees of one tier *)

Section views.
Context (h : gmap string Z) (t : tier) (now : Z).

(** The stored aggregate count, [tonumber(cur or '0')]. *)
Definition aggregate : Z := default 0 (h !! count_key t).

(** The sub-count of one bucket, 0 when the bucket has no field. *)
Definition bucket (block : Z) : Z := default 0 (h !! bucket_key t block).

(** [old_ts and tonumber(old_ts) or saved.trim_before] *)
Definition old_ts : Z := default (trim_before t now) (h !! ts_key t).

(** The blocks [old_ts .. trim - 1] that the cleanup visits. *)
Definition stale : list Z :=
  seqZ old_ts (Z.min (trim_before t now) (old_ts + blocks t) - old_ts).

(** [decr]: the sub-counts found in the stale blocks. *)
Definition stale_count : Z := foldr (λ b acc, bucket b + acc) 0 stale.

(** [dele]: the fields of the stale blocks that exist. *)
Definition stale_fields : list string :=
  bucket_key t <$> filter (λ b, is_Some (h !! bucket_key t b)) stale.

(** The aggregate once the stale buckets are taken out. *)
Definition remaining : Z := aggregate - stale_count.

(** The hash after the cleanup of this tier. *)
Definition evict : gmap string Z :=
  match stale_fields with
  | [] => h
  | _ => <[count_key t := remaining]> (foldr delete h stale_fields)
  end.

(** The stored timestamp is ahead of the clock. *)
Definition regressed : Prop := old_ts > now.

#[global] Instance regressed_dec : Decision regressed.
Proof. unfold regressed. apply _. Defined.

(** This tier alone turns the call down: clock regression, or no room
    for [weight] under the threshold after the cleanup. *)
Definition violates (weight : Z) : Prop :=
  regressed ∨ remaining + weight > threshold t.

#[global] Instance violates_dec weight : Decision (violates weight).
Proof. unfold violates, regressed. apply _. Defined.
End views.

(** How many entries of [limits] count into the fields of [t]. *)
Definition sharing (t : tier) (limits : list tier) : Z :=
  Z.of_nat (length (filter (λ t', count_key t' = count_key t) limits)).

(** *** Fields of the hash that are buckets of a tier *)

Fixpoint strip_prefix (p s : string) : option string :=
  match p, s with
  | EmptyString, _ => Some s
  | String a p', String b s' =>
      if decide (a = b) then strip_prefix p' s' else None
  | String _ _, EmptyString => None
  end.

Fixpoint numeric (s : string) : bool :=
  match s with
  | EmptyString => true
  | String a s' =>
      (bool_decide (is_Some (Ascii.is_nat a)) || bool_decide (a = "-"%char))
      && numeric s'
  end.

(** A block number as Lua prints it: digits, with a sign when negative. *)
Definition numeral (s : string) : bool :=
  bool_decide (s ≠ EmptyString) && numeric s.

(** [f] is [count_key t] followed by a block number. *)
Definition bucket_of (t : tier) (f : string) : bool :=
  match strip_prefix (count_key t) f with
  | Some x => numeral x
  | None => false
  end.

(** The sum of the sub-counts of the buckets of [t] that are in the hash:
    the live, not yet evicted, buckets. *)
Definition bucket_sum (h : gmap string Z) (t : tier) : Z :=
  map_fold (λ f v acc, if bucket_of t f then v + acc else acc) 0 h.

(** The Counter Record invariant. *)
Definition consistent (h : gmap string Z) : Prop :=
  ∀ t, aggregate h t = bucket_sum h t.

Definition buckets_nonneg (h : gmap string Z) : Prop :=
  ∀ t f v, h !! f = Some v → bucket_of t f = true → 0 ≤ v.

(** *** The two loops as functions of the hash *)

Definition evict_all (h : gmap string Z) (limits : list tier) (now : Z)
    : gmap string Z :=
  foldl (λ h t, evict h t now) h limits.

(** The hash after the update of one tier. *)
Definition bump (h : gmap string Z) (t : tier) (now weight : Z)
    : gmap string Z :=
  let h1 := <[ts_key t := trim_before t now]> h in
  let h2 := <[count_key t := aggregate h1 t + weight]> h1 in
  <[bucket_key t (block_id t now) := bucket h2 t (block_id t now) + weight]> h2.

Definition bump_all (h : gmap string Z) (limits : list tier) (now weight : Z)
    : gmap string Z :=
  foldl (λ h t, bump h t now weight) h limits.

(** Two hashes agree on every field of a tier. *)
Definition same_fields (t : tier) (h1 h2 : gmap string Z) : Prop :=
  ∀ x, h1 !! (count_key t +:+ x) = h2 !! (count_key t +:+ x).

(** A string without colon. *)
Fixpoint colon_free (s : string) : Prop :=
  match s with
  | EmptyString => True
  | String a s' => a ≠ ":"%char ∧ colon_free s'
  end.

(** The part of a field value that counts into the bucket sum of [t]. *)
Definition share (t : tier) (f : string) (v : Z) : Z :=
  if bucket_of t f then v else 0.

(** The sub-counts held in the buckets [bs] of a tier. *)
Definition held (h : gmap string Z) (t : tier) (bs : list Z) : Z :=
  foldr (λ b acc, bucket h t b + acc) 0 bs.

(** ** Sequences of calls on one key *)

(** The states of the record at [key] that calls of the script can
    produce, with weights taken from [W].  Between two calls the key may
    expire, which removes the hash. *)
Inductive reachable_with (W : Z → Prop) (key : string) : redis → Prop :=
  | reach_fresh : reachable_with W key fresh
  | reach_call s limits now weight :
      reachable_with W key s → W weight →
      reachable_with W key (overLimitCheck key limits now weight s).2
  | reach_expired s :
      reachable_with W key s →
      reachable_with W key (Redis ∅ None (calls s)).

Definition reachable : string → redis → Prop := reachable_with (λ _, True).

(** Calls with the same tiers and weight at the times [nows], in order. *)
Fixpoint calls_at (key : string) (limits : list tier) (weight : Z)
    (nows : list Z) (s : redis) : list reply * redis :=
  match nows with
  | [] => ([], s)
  | now :: rest =>
      let '(r, s') := overLimitCheck key limits now weight s in
      let '(rs, s'') := calls_at key limits weight rest s' in
      (r :: rs, s'')
  end.

(** The calls at [nows] fall in one window of the tier: the bucket
    of each is still live at each of the others. *)
Definition same_window (t : tier) (nows : list Z) : Prop :=
  ∀ n n', n ∈ nows → n' ∈ nows → block_id t n' - block_id t n < blocks t.

(** Tier lists used in the examples: [[1, 2]] as in the tests, and a
    ten-second tier with five-second buckets next to a one-second tier. *)
Definition free_1_2 : list tier := [Tier 1 2 None].

Definition two_tiers : list tier := [Tier 10 3 (Some 5); Tier 1 5 None].

#[global] Instance same_window_dec t nows : Decision (same_window t nows).
Proof.
  destruct (decide (Forall (λ n, Forall (λ n',
              block_id t n' - block_id t n < blocks t) nows) nows))
    as [H|H]; [left|right].
  - intros n n' Hn Hn'.
    eapply Forall_forall in H; [|exact Hn].
    eapply Forall_forall in H; [|exact Hn']. exact H.
  - intros Hw. apply H.
    apply Forall_forall; intros n Hn. apply Forall_forall; intros n' Hn'.
    by apply Hw.
Defined.

(** The command is an [EXPIRE]. *)
Definition is_expire (c : command) : bool :=
  match c with
  | EXPIRE _ _ => true
  | _ => false
  end.

(** ** Invariants of the record under calls in time order *)

(** The record as calls at non-decreasing times up to [T] leave it: a
    stored timestamp is the trim point of a time up to [T], and every bucket
    of a tier lies in the window that starts at the stored timestamp and
    is no later than the block of [T]. *)
Definition tidy (h : gmap string Z) (T : Z) : Prop :=
  ∀ t, tier_ok t →
    (∀ ts, h !! ts_key t = Some ts → ts ≤ trim_before t T)
    ∧ (∀ f, is_Some (h !! f) → bucket_of t f = true →
         ∃ b ts, f = bucket_key t b ∧ h !! ts_key t = Some ts
                 ∧ ts ≤ b < ts + blocks t ∧ b ≤ block_id t T).

(** No bucket of the tier is older than the trim point of [now]. *)
Definition trimmed (h : gmap string Z) (t : tier) (now : Z) : Prop :=
  ∀ b, is_Some (h !! bucket_key t b) → trim_before t now ≤ b.

(** The states that calls at non-decreasing times, the last one at [T] or
    before, can produce. *)
Inductive reachable_until (key : string) : Z → redis → Prop :=
  | until_fresh T : reachable_until key T fresh
  | until_call T s limits now weight :
      reachable_until key T s → T ≤ now →
      reachable_until key now (overLimitCheck key limits now weight s).2
  | until_expired T s :
      reachable_until key T s →
      reachable_until key T (Redis ∅ None (calls s)).


(** [longest_duration] at the end of the first loop. *)
Definition longest (first : tier) (limits : list tier) : Z :=
  foldl Z.max (duration first) (duration <$> limits).

(** The record of ["k"] after two allowed calls against [[1, 2]] in second
    100: the tier is used up. *)
Definition used_up : redis :=
  (overLimitCheck "k" free_1_2 100 1
     (overLimitCheck "k" free_1_2 100 1 fresh).2).2.

(** ** The class [Guardini] of [index.ts] *)

Module Guardini.

(** The [options] object: [namespace] and [cacheInvalidateTtl] may be
    absent; [plans] maps a plan name to its [limits]. *)
Record options : Type := Options {
  opt_namespace : option string;
  opt_cacheInvalidateTtl : option Z;
  opt_plans : gmap string (list tier)
}.

(** An instance: its options, and whether a [planProvider] was passed to
    the constructor (what the provider answers belongs to the world). *)
Record instance : Type := NewGuardini {
  opts : options;
  planProvider : bool
}.

(** Node-style results [(error, value)] of an asynchronous request. *)
Inductive outcome (A : Type) : Type :=
  | Failed (error : string)
  | Got (value : A).
Arguments Failed {A} error.
Arguments Got {A} value.

(** A JavaScript string or [null] in a condition: [null] and the empty
    string are falsy. *)
Definition truthy (v : option string) : bool :=
  match v with
  | Some s => bool_decide (s ≠ EmptyString)
  | None => false
  end.

(** What a call does next.  Each asynchronous request carries the callback
    of the source as its continuation; [redis.del] and [redis.expire] are
    sent without a callback, and [redis.set] has both a callback and the
    code that follows it.  [Callback] is the caller's [callback(err,
    denied)]; an omitted second argument is [None].  [LoadScript] is
    [scripty.loadScript], whose callback gets the error of a failed load
    or the script, and [Throw] is an exception that nothing catches.  Calls
    of the optional logger are left out. *)
Inductive action : Type :=
  | Callback (err : option string) (denied : option bool)
  | Stop
  | Throw
  | RedisGet (key : string) (k : outcome (option string) → action)
  | RedisDel (key : string) (next : action)
  | RedisSet (key value : string) (k : option string → action)
      (next : action)
  | RedisExpire (key : string) (seconds : Z) (next : action)
  | CallProvider (token : string) (k : outcome (option string) → action)
  | Clock (k : Z → action)
  | LoadScript (k : option string → action)
  | RunScript (key : string) (limits : list tier) (timestamp weight : Z)
      (k : outcome Z → action).

Section methods.
Context (this : instance).

(** [get namespace()] *)
Definition namespace : string := default EmptyString (opt_namespace (opts this)).

(** [get cacheTtl()] *)
Definition cacheTtl : Z := default 3600 (opt_cacheInvalidateTtl (opts this)).

(** [get shouldCacheTokens()] *)
Definition shouldCacheTokens : bool := bool_decide (cacheTtl > 0).

(** [static get now()]: [Math.round(new Date().getTime() / 1000)] of the
    clock in milliseconds. *)
Definition now (k : Z → action) : action :=
  Clock (λ ms, k ((ms + 500) `div` 1000)).

(** [getPlanLimits]: [null] for a name that is not in [plans].  A name
    that [in] finds on [Object.prototype] yields [undefined], which the
    callers treat like [null]. *)
Definition getPlanLimits (planName : string) : option (list tier) :=
  opt_plans (opts this) !! planName.

(** [allowsGuests]: ['free' in this.options.plans] *)
Definition allowsGuests : bool :=
  bool_decide (is_Some (opt_plans (opts this) !! "free")).

(** [this.lua.overLimitCheck]: load the script, run it and call back with
    [(error, result > 0)]; [undefined > 0] is [false].  The callback of
    [loadScript] does not look at [err]: after a failed load [script] is
    undefined, and [script.run] throws a [TypeError]. *)
Definition lua_overLimitCheck (key : string) (limits : list tier)
    (timestamp weight : Z) : action :=
  LoadScript (λ err,
    match err with
    | Some _ => Throw
    | None =>
        RunScript key limits timestamp weight (λ r,
          match r with
          | Failed error => Callback (Some error) (Some false)
          | Got result => Callback None (Some (bool_decide (result > 0)))
          end)
    end).

Definition ipIsAllowed (ipAddress : string) : action :=
  if negb allowsGuests then Callback None (Some true)
  else
    let limits := default [] (opt_plans (opts this) !! "free") in
    let key := "rl:hit:" +:+ ipAddress in
    now (λ ts, lua_overLimitCheck key limits ts 1).

Definition isTokenAllowed (token ipAddress : string) : action :=
  let key := namespace +:+ ":rl:" +:+ token in
  let checkKey := namespace +:+ ":rl:hit:" +:+ token in
  RedisGet key (λ r,
    match r with
    | Failed error => Callback (Some error) None
    | Got plan =>
        if truthy plan then
          let plan := default EmptyString plan in
          if bool_decide (plan = "none") then ipIsAllowed ipAddress
          else
            match getPlanLimits plan with
            | Some limits =>
                now (λ ts, lua_overLimitCheck checkKey limits ts 1)
            | None => RedisDel key (ipIsAllowed ipAddress)
            end
        else if negb (planProvider this) then ipIsAllowed ipAddress
        else
          CallProvider token (λ r,
            match r with
            | Failed planErr => Callback (Some planErr) None
            | Got plan =>
                let rest :=
                  if truthy plan then
                    match getPlanLimits (default EmptyString plan) with
                    | None => ipIsAllowed ipAddress
                    | Some limits =>
                        now (λ ts, lua_overLimitCheck checkKey limits ts 1)
                    end
                  else ipIsAllowed ipAddress in
                if shouldCacheTokens then
                  RedisSet key (if truthy plan then default EmptyString plan
                           else "none")
                    (λ err, match err with
                            | Some _ => Stop
                            | None => RedisExpire key cacheTtl Stop
                            end)
                    rest
                else rest
            end)
    end).

Definition check (token : option string) (ipAddress : string) : action :=
  if negb allowsGuests && negb (truthy token) then Callback None (Some true)
  else if truthy token
       then isTokenAllowed (default EmptyString token) ipAddress
       else ipIsAllowed ipAddress.
End methods.

(** *** Running a call against the outside world *)

(** What the collaborators answer: the store to [get] and [set], the
    plan provider, the script, the clock in milliseconds, and the error of
    loading the script if the load fails. *)
Record world : Type := World {
  get_reply : string → outcome (option string);
  set_reply : string → string → option string;
  provider_reply : string → outcome (option string);
  script_reply : string → list tier → Z → Z → outcome Z;
  clock_ms : Z;
  script_load : option string
}.

(** The requests that leave the process. *)
Inductive request : Type :=
  | ReqGet (key : string)
  | ReqDel (key : string)
  | ReqSet (key value : string)
  | ReqExpire (key : string) (seconds : Z)
  | ReqProvider (token : string)
  | ReqScript (key : string) (limits : list tier) (timestamp weight : Z).

(** The call ends in an exception that nothing catches. *)
Fixpoint throws (w : world) (a : action) : bool :=
  match a with
  | Callback _ _ | Stop => false
  | Throw => true
  | RedisGet key k => throws w (k (get_reply w key))
  | RedisDel _ next => throws w next
  | RedisSet key value k next =>
      throws w next || throws w (k (set_reply w key value))
  | RedisExpire _ _ next => throws w next
  | CallProvider token k => throws w (k (provider_reply w token))
  | Clock k => throws w (k (clock_ms w))
  | LoadScript k => throws w (k (script_load w))
  | RunScript key limits timestamp weight k =>
      throws w (k (script_reply w key limits timestamp weight))
  end.

(** The requests sent, in the order in which they are sent, and the
    arguments of the caller's callback each time it is called.  The code
    that follows [redis.set] runs before the callback of the [set] does, so
    its requests come first; loading the script is the business of the
    library and is not listed.  An exception that nothing catches ends the
    process: the callback of a [set] that is still pending never runs. *)
Fixpoint run (w : world) (a : action)
    : list request * list (option string * option bool) :=
  match a with
  | Callback err denied => ([], [(err, denied)])
  | Stop | Throw => ([], [])
  | RedisGet key k =>
      let '(rs, cs) := run w (k (get_reply w key)) in (ReqGet key :: rs, cs)
  | RedisDel key next =>
      let '(rs, cs) := run w next in (ReqDel key :: rs, cs)
  | RedisSet key value k next =>
      let '(rs2, cs2) := run w next in
      if throws w next then (ReqSet key value :: rs2, cs2)
      else
        let '(rs1, cs1) := run w (k (set_reply w key value)) in
        (ReqSet key value :: rs2 ++ rs1, cs2 ++ cs1)
  | RedisExpire key seconds next =>
      let '(rs, cs) := run w next in (ReqExpire key seconds :: rs, cs)
  | CallProvider token k =>
      let '(rs, cs) := run w (k (provider_reply w token)) in
      (ReqProvider token :: rs, cs)
  | Clock k => run w (k (clock_ms w))
  | LoadScript k => run w (k (script_load w))
  | RunScript key limits timestamp weight k =>
      let '(rs, cs) :=
        run w (k (script_reply w key limits timestamp weight)) in
      (ReqScript key limits timestamp weight :: rs, cs)
  end.

(** *** Running a call against a Redis that executes the script *)

(** What a key holds: a string or a hash, and the clock in milliseconds
    at which the key expires if a time to live was set. *)
Inductive content : Type :=
  | Plain (value : string)
  | Fields (h : gmap string Z).

Record entry : Type := Entry {
  holds : content;
  deadline : option Z
}.

(** The keyspace, [gmap string entry]: plan names and counter records
    live side by side. *)
Definition empty_store : gmap string entry := ∅.

(** The entry of a key at the clock [ms]: an expired key is gone. *)
Definition live (ms : Z) (st : gmap string entry) (key : string)
    : option entry :=
  match st !! key with
  | Some e =>
      match deadline e with
      | Some d => if bool_decide (d ≤ ms) then None else Some e
      | None => Some e
      end
  | None => None
  end.

(** The error reply to a command for another type than the key holds. *)
Definition wrong_type : string :=
  "WRONGTYPE Operation against a key holding the wrong kind of value".

Definition script_error : string := "ERR Error running script".

(** The script on the hash [h] of [key], whose deadline is [old]: the
    reply, and the keyspace with what the script left.  A hash without
    fields is no key; the deadline is new when the script sent an
    [EXPIRE] that took effect, gone when the key was removed on the way,
    and the old one otherwise. *)
Definition script_on (ms : Z) (key : string) (limits : list tier)
    (timestamp weight : Z) (h : gmap string Z) (old : option Z)
    (st : gmap string entry)
    : outcome Z * gmap string entry :=
  let '(r, s) :=
    overLimitCheck key limits timestamp weight
      (Redis h ((λ d, (d - ms) `div` 1000) <$> old) []) in
  (match r with
   | Return n => Got n
   | LuaError => Failed script_error
   end,
   if decide (hash s = ∅) then delete key st
   else <[key := Entry (Fields (hash s))
                   match expiry s with
                   | Some d => if existsb is_expire (calls s)
                               then Some (ms + d * 1000) else old
                   | None => None
                   end]> st).

(** Running the script on [key] at the clock [ms].  On a key that holds a
    string the first command of the script, an [HGET], is refused and the
    script ends with that error; with an empty tier list the script fails
    before its first command. *)
Definition eval_script (ms : Z) (key : string) (limits : list tier)
    (timestamp weight : Z) (st : gmap string entry)
    : outcome Z * gmap string entry :=
  match live ms st key with
  | Some (Entry (Plain _) _) =>
      (Failed (match limits with
               | [] => script_error
               | _ => wrong_type
               end), st)
  | Some (Entry (Fields h) old) =>
      script_on ms key limits timestamp weight h old st
  | None => script_on ms key limits timestamp weight ∅ None st
  end.

(** One call with a working Redis whose clock is the clock of the process,
    a script that loads, a provider given as a function and a fixed
    clock: the new keyspace and the callback arguments.  [GET] of a hash
    is refused, [SET] replaces whatever the key holds and drops its time
    to live, [EXPIRE] sets the deadline of a key that exists. *)
Fixpoint exec (provider : string → outcome (option string)) (ms : Z)
    (a : action) (st : gmap string entry)
    : gmap string entry * list (option string * option bool) :=
  match a with
  | Callback err denied => (st, [(err, denied)])
  | Stop | Throw => (st, [])
  | RedisGet key k =>
      exec provider ms
        (k (match live ms st key with
            | Some (Entry (Plain value) _) => Got (Some value)
            | Some (Entry (Fields _) _) => Failed wrong_type
            | None => Got None
            end)) st
  | RedisDel key next => exec provider ms next (delete key st)
  | RedisSet key value k next =>
      let '(st2, cs2) :=
        exec provider ms next (<[key := Entry (Plain value) None]> st) in
      let '(st3, cs1) := exec provider ms (k None) st2 in
      (st3, cs2 ++ cs1)
  | RedisExpire key seconds next =>
      exec provider ms next
        match live ms st key with
        | Some e => <[key := Entry (holds e) (Some (ms + seconds * 1000))]> st
        | None => st
        end
  | CallProvider token k => exec provider ms (k (provider token)) st
  | Clock k => exec provider ms (k ms) st
  | LoadScript k => exec provider ms (k None) st
  | RunScript key limits timestamp weight k =>
      let '(r, st') := eval_script ms key limits timestamp weight st in
      exec provider ms (k r) st'
  end.

(** *** Predicates on the requests of a run *)

(** The requests of a successful lookup from the cache write on: the
    [set], the requests [rest] of the code that follows it, and the
    [expire] that the callback of the [set] sends. *)
Definition cache_write (this : instance) (w : world) (token : string)
    (plan : option string) (rest : list request) : list request :=
  let key := namespace this +:+ ":rl:" +:+ token in
  let value := if truthy plan then default EmptyString plan else "none" in
  if shouldCacheTokens this then
    ReqSet key value :: rest ++
    match set_reply w key value with
    | Some _ => []
    | None => [ReqExpire key (cacheTtl this)]
    end
  else rest.


(** What [now] reads off the clock of the world. *)
Definition seconds (w : world) : Z := (clock_ms w + 500) `div` 1000.


(** Every script call of the run is the guest counter of the address. *)
Definition limited_by_ip (this : instance) (w : world) (ipAddress : string)
    (a : action) : Prop :=
  Forall (λ r, match r with
               | ReqScript key limits _ _ =>
                   key = "rl:hit:" +:+ ipAddress
                   ∧ opt_plans (opts this) !! "free" = Some limits
               | _ => True
               end) (run w a).1.

(** The instances of [test/test.ts]. *)
Definition GNoFree : instance :=
  NewGuardini (Options None None {[ "whatever" := [Tier 1 2 None] ]}) false.

Definition GFree : instance :=
  NewGuardini (Options None None {[ "free" := [Tier 1 2 None] ]}) false.

Definition GNoPlan : instance :=
  NewGuardini (Options None None {[ "whatever" := [Tier 1 2 None] ]}) true.

Definition GWhatever : instance :=
  NewGuardini (Options None None {[ "whatever" := [Tier 1 1 None] ]}) true.

(** A world whose cache holds ["gold"] for every token, and one whose
    cache read fails. *)
Definition gold_world : world :=
  World (λ _, Got (Some "gold")) (λ _ _, None) (λ _, Got None)
    (λ _ _ _ _, Got 0) 1000000 None.

Definition down_world : world :=
  World (λ _, Failed "ECONNREFUSED") (λ _ _, None) (λ _, Got None)
    (λ _ _ _ _, Got 0) 1000000 None.

Definition lookup_down_world : world :=
  World (λ _, Got None) (λ _ _, None) (λ _, Failed "lookup failed")
    (λ _ _ _ _, Got 0) 1000000 None.

(** A plan named ["none"] is configured and the lookup answers ["none"]. *)
Definition none_instance : instance :=
  NewGuardini (Options (Some "ns") None
              {[ "none" := [Tier 1 1 None]; "free" := [Tier 1 2 None] ]})
    true.

Definition none_world : world :=
  World (λ _, Got None) (λ _ _, None) (λ _, Got (Some "none"))
    (λ _ _ _ _, Got 0) 1000000 None.

(** *** What a run tells the caller, and what it asks of the cache *)

(** The arguments that [this.lua.overLimitCheck] hands to the callback. *)
Definition script_verdict (r : outcome Z) : option string * option bool :=
  match r with
  | Failed error => (Some error, Some false)
  | Got result => (None, Some (bool_decide (result > 0)))
  end.


(** The request concerns the plan cache in a way the configuration
    allows: a write only when caching is on, of a non-empty value, and an
    expiry of exactly the configured time to live. *)
Definition cache_discipline (this : instance) (r : request) : Prop :=
  match r with
  | ReqSet _ value => shouldCacheTokens this = true ∧ value ≠ EmptyString
  | ReqExpire _ seconds => seconds = cacheTtl this ∧ 0 < seconds
  | _ => True
  end.

(** The request is the plan lookup or a write of the plan cache. *)
Definition lookup_or_cache_write (r : request) : bool :=
  match r with
  | ReqSet _ _ | ReqExpire _ _ | ReqProvider _ => true
  | _ => false
  end.

(** A world whose cache holds ["whatever"] for every token, and one with
    an empty cache whose lookup answers ["whatever"]. *)
Definition whatever_world : world :=
  World (λ _, Got (Some "whatever")) (λ _ _, None) (λ _, Got None)
    (λ _ _ _ _, Got 0) 1000000 None.

Definition miss_world : world :=
  World (λ _, Got None) (λ _ _, None) (λ _, Got (Some "whatever"))
    (λ _ _ _ _, Got 0) 1000000 None.

(** The same two worlds with a script that fails to load. *)
Definition whatever_unloaded : world :=
  World (λ _, Got (Some "whatever")) (λ _ _, None) (λ _, Got None)
    (λ _ _ _ _, Got 0) 1000000 (Some "ECONNREFUSED").


End Guardini.

(** * Properties *)

Ltac step := unfold mbind, script_bind, mret, script_ret,
  hget, hdel, hincrby, hset, expire; simpl.

(** * Field names *)

Lemma app_cons a (p s : string) : String a p +:+ s = String a (p +:+ s).
Proof. reflexivity. Qed.

Lemma app_empty_l (s : string) : "" +:+ s = s.
Proof. reflexivity. Qed.

Lemma app_empty_r (s : string) : s +:+ "" = s.
Proof. induction s as [|a s IH]; [done|]. by rewrite app_cons, IH. Qed.

Lemma app_assoc_str (a b c : string) : (a +:+ b) +:+ c = a +:+ b +:+ c.
Proof. induction a as [|x a IH]; [done|]. by rewrite !app_cons, IH. Qed.

Lemma strip_prefix_app p x : strip_prefix p (p +:+ x) = Some x.
Proof.
  induction p as [|a p IH]; [done|].
  rewrite app_cons. simpl. by rewrite decide_True.
Qed.

Lemma strip_prefix_Some p s x : strip_prefix p s = Some x → s = p +:+ x.
Proof.
  revert s. induction p as [|a p IH]; intros s; simpl.
  - by intros [= ->].
  - destruct s as [|b s]; [done|]. case_decide; [|done].
    intros ?%IH. rewrite app_cons. congruence.
Qed.

Lemma numeric_app a b : numeric (a +:+ b) = numeric a && numeric b.
Proof.
  induction a as [|x a IH]; [done|].
  rewrite app_cons. simpl. rewrite IH. by rewrite andb_assoc.
Qed.

Lemma numeric_pretty_N_char x : numeric (String (pretty_N_char x) "") = true.
Proof. unfold pretty_N_char. by repeat case_match. Qed.

Lemma numeric_pretty_N_go x s :
  numeric s = true → numeric (pretty_N_go x s) = true.
Proof.
  revert s. induction (N.lt_wf_0 x) as [x _ IH]; intros s Hs.
  assert (x = 0 ∨ 0 < x)%N as [->|?] by lia.
  - by rewrite pretty_N_go_0.
  - rewrite pretty_N_go_step by done. apply IH; [by apply N.div_lt|].
    change (String ?c s) with (String c "" +:+ s).
    by rewrite numeric_app, numeric_pretty_N_char.
Qed.

Lemma pretty_N_go_nonempty x s : s ≠ "" → pretty_N_go x s ≠ "".
Proof.
  revert s. induction (N.lt_wf_0 x) as [x _ IH]; intros s Hs.
  assert (x = 0 ∨ 0 < x)%N as [->|?] by lia.
  - by rewrite pretty_N_go_0.
  - rewrite pretty_N_go_step by done. apply IH; [by apply N.div_lt|done].
Qed.

Lemma numeral_pretty_N (x : N) : numeral (pretty x) = true.
Proof.
  unfold pretty, pretty_N. case_decide; [done|].
  assert (0 < x)%N by lia.
  unfold numeral. rewrite numeric_pretty_N_go by done.
  rewrite pretty_N_go_step by done.
  rewrite bool_decide_true; [done|]. by apply pretty_N_go_nonempty.
Qed.

Lemma numeral_pretty (z : Z) : numeral (pretty z) = true.
Proof.
  destruct z as [|p|p]; [done|apply (numeral_pretty_N (N.pos p))|].
  unfold pretty, pretty_Z.
  pose proof (numeral_pretty_N (N.pos p)) as H.
  unfold numeral in *. apply andb_true_iff in H as [_ H].
  change (pretty p) with (pretty (N.pos p)).
  by rewrite numeric_app, H.
Qed.

Lemma numeric_colon_free s : numeric s = true → colon_free s.
Proof.
  induction s as [|a s IH]; [done|]. simpl.
  intros [Ha Hs]%andb_true_iff. split; [|by apply IH].
  intros ->. done.
Qed.

Lemma colon_free_pretty (z : Z) : colon_free (pretty z).
Proof.
  apply numeric_colon_free.
  pose proof (numeral_pretty z) as H. unfold numeral in H.
  by apply andb_true_iff in H as [_ H].
Qed.

Lemma colon_split a b x y :
  colon_free a → colon_free b →
  a +:+ ":" +:+ x = b +:+ ":" +:+ y → a = b ∧ x = y.
Proof.
  revert b. induction a as [|c a IH]; intros [|d b]; simpl;
    rewrite ?app_cons, ?app_empty_l.
  - intros _ _ [= ->]. done.
  - intros _ [Hd _] [= <-]. done.
  - intros [Hc _] _ [= ->]. done.
  - intros [_ Ha] [_ Hb] [= -> H].
    destruct (IH b Ha Hb H) as [-> ->]. done.
Qed.

Lemma count_key_app t x :
  count_key t +:+ x
  = pretty (duration t) +:+ ":" +:+ pretty (precision t) +:+ ":" +:+ x.
Proof. unfold count_key. by rewrite !app_assoc_str. Qed.

Lemma field_inj t t' x x' :
  count_key t +:+ x = count_key t' +:+ x' →
  duration t = duration t' ∧ precision t = precision t' ∧ x = x'.
Proof.
  rewrite !count_key_app. intros H.
  apply colon_split in H as [Hd H]; [|apply colon_free_pretty..].
  apply colon_split in H as [Hp H]; [|apply colon_free_pretty..].
  by apply (inj pretty) in Hd, Hp.
Qed.

Lemma count_key_inj t t' :
  count_key t = count_key t' →
  duration t = duration t' ∧ precision t = precision t'.
Proof.
  intros H. rewrite <-(app_empty_r (count_key t)) in H.
  rewrite <-(app_empty_r (count_key t')) in H.
  apply field_inj in H. tauto.
Qed.

Lemma count_key_eq t t' :
  duration t = duration t' → precision t = precision t' →
  count_key t = count_key t'.
Proof. unfold count_key. by intros -> ->. Qed.

Lemma field_eq_iff t t' x x' :
  count_key t +:+ x = count_key t' +:+ x' ↔
  count_key t = count_key t' ∧ x = x'.
Proof.
  split; [|by intros [-> ->]].
  intros (? & ? & ?)%field_inj. split; [by apply count_key_eq|done].
Qed.

(** Tiers with the same count key are the same for the cleanup. *)
Lemma same_key_blocks t t' : count_key t = count_key t' → blocks t = blocks t'.
Proof. intros [Hd Hp]%count_key_inj. unfold blocks. by rewrite Hd, Hp. Qed.

Lemma same_key_block_id t t' now :
  count_key t = count_key t' → block_id t now = block_id t' now.
Proof. intros [Hd Hp]%count_key_inj. unfold block_id. by rewrite Hp. Qed.

Lemma same_key_trim_before t t' now :
  count_key t = count_key t' → trim_before t now = trim_before t' now.
Proof.
  intros H. unfold trim_before.
  by rewrite (same_key_blocks _ _ H), (same_key_block_id _ _ _ H).
Qed.

Lemma ts_key_ne_count_key t t' : ts_key t ≠ count_key t'.
Proof.
  unfold ts_key. rewrite <-(app_empty_r (count_key t')).
  by intros (_ & _ & ?)%field_inj.
Qed.

Lemma pretty_ne_o (b : Z) : pretty b ≠ "o".
Proof.
  intros H. pose proof (numeral_pretty b) as Hn. by rewrite H in Hn.
Qed.

Lemma pretty_ne_empty (b : Z) : pretty b ≠ "".
Proof.
  intros H. pose proof (numeral_pretty b) as Hn. by rewrite H in Hn.
Qed.

Lemma bucket_key_ne_ts_key t t' b : bucket_key t b ≠ ts_key t'.
Proof.
  unfold ts_key, bucket_key. intros (_ & _ & ?)%field_inj.
  by apply pretty_ne_o in H.
Qed.

Lemma bucket_key_ne_count_key t t' b : bucket_key t b ≠ count_key t'.
Proof.
  unfold bucket_key. rewrite <-(app_empty_r (count_key t')).
  intros (_ & _ & ?)%field_inj. by apply pretty_ne_empty in H.
Qed.

Lemma bucket_key_eq_iff t t' b b' :
  bucket_key t b = bucket_key t' b' ↔ count_key t = count_key t' ∧ b = b'.
Proof.
  unfold bucket_key. rewrite field_eq_iff.
  split; intros [? ?]; split; try done; [by apply (inj pretty)|congruence].
Qed.

Lemma bucket_of_app t t' x :
  bucket_of t (count_key t' +:+ x)
  = bool_decide (count_key t = count_key t') && numeral x.
Proof.
  unfold bucket_of. case_bool_decide as Hk.
  - by rewrite <-Hk, strip_prefix_app.
  - destruct (strip_prefix _ _) as [y|] eqn:Hs; [|done].
    apply strip_prefix_Some in Hs. symmetry in Hs.
    apply field_eq_iff in Hs as [? _]. done.
Qed.

Lemma bucket_of_bucket_key t t' b :
  bucket_of t (bucket_key t' b) = bool_decide (count_key t = count_key t').
Proof.
  unfold bucket_key. by rewrite bucket_of_app, numeral_pretty, andb_true_r.
Qed.

Lemma bucket_of_count_key t t' : bucket_of t (count_key t') = false.
Proof.
  rewrite <-(app_empty_r (count_key t')), bucket_of_app.
  by rewrite andb_false_r.
Qed.

Lemma bucket_of_ts_key t t' : bucket_of t (ts_key t') = false.
Proof. unfold ts_key. rewrite bucket_of_app. by rewrite andb_false_r. Qed.

Lemma bucket_of_inv t f :
  bucket_of t f = true → ∃ x, f = count_key t +:+ x ∧ numeral x = true.
Proof.
  unfold bucket_of. destruct (strip_prefix _ _) as [x|] eqn:Hs; [|done].
  intros ?. exists x. split; [by apply strip_prefix_Some|done].
Qed.

(** * The cleanup of one tier as a function of the hash *)

Lemma elem_of_stale_fields h t now f :
  f ∈ stale_fields h t now ↔
  ∃ b, f = bucket_key t b ∧ b ∈ stale h t now ∧ is_Some (h !! f).
Proof.
  unfold stale_fields. rewrite list_elem_of_fmap. split.
  - intros (b & -> & [? ?]%list_elem_of_filter). by exists b.
  - intros (b & -> & ? & ?). exists b. by rewrite list_elem_of_filter.
Qed.

Lemma count_key_not_stale h t t' now : count_key t' ∉ stale_fields h t now.
Proof.
  intros (b & Hb & _)%elem_of_stale_fields.
  symmetry in Hb. by apply bucket_key_ne_count_key in Hb.
Qed.

Lemma ts_key_not_stale h t t' now : ts_key t' ∉ stale_fields h t now.
Proof.
  intros (b & Hb & _)%elem_of_stale_fields.
  symmetry in Hb. by apply bucket_key_ne_ts_key in Hb.
Qed.

Lemma sum_absent h t bs :
  (∀ b, b ∈ bs → h !! bucket_key t b = None) →
  foldr (λ b acc, bucket h t b + acc) 0 bs = 0.
Proof.
  induction bs as [|b bs IH]; [done|]. intros H. simpl.
  rewrite IH by (intros b' ?; apply H; by right).
  unfold bucket. rewrite H by (by left). done.
Qed.

Lemma stale_count_none h t now :
  stale_fields h t now = [] → stale_count h t now = 0.
Proof.
  intros H. apply sum_absent. intros b Hb.
  destruct (h !! bucket_key t b) as [v|] eqn:Hv; [|done].
  assert (bucket_key t b ∈ stale_fields h t now) as Hin.
  { apply elem_of_stale_fields. exists b. by rewrite Hv. }
  rewrite H in Hin. by apply not_elem_of_nil in Hin.
Qed.

Lemma remaining_none h t now :
  stale_fields h t now = [] → remaining h t now = aggregate h t.
Proof. intros H. unfold remaining. rewrite stale_count_none by done. lia. Qed.

Lemma lookup_evict_count_key h t now :
  default 0 (evict h t now !! count_key t) = remaining h t now.
Proof.
  unfold evict. destruct (stale_fields h t now) eqn:H.
  - by rewrite remaining_none.
  - by rewrite lookup_insert_eq.
Qed.

Lemma lookup_evict_stale h t now f :
  f ∈ stale_fields h t now → evict h t now !! f = None.
Proof.
  intros Hf. assert (count_key t ≠ f) as Hne.
  { intros <-. by apply count_key_not_stale in Hf. }
  pose proof (lookup_foldr_delete h _ _ Hf) as Hdel.
  unfold evict. destruct (stale_fields h t now) eqn:H.
  { by apply not_elem_of_nil in Hf. }
  by rewrite lookup_insert_ne.
Qed.

Lemma lookup_evict_keep h t now f :
  f ≠ count_key t → f ∉ stale_fields h t now → evict h t now !! f = h !! f.
Proof.
  intros Hc Hf.
  pose proof (lookup_foldr_delete_not_elem_of h _ _ Hf) as Hdel.
  unfold evict. destruct (stale_fields h t now) eqn:H; [done|].
  by rewrite lookup_insert_ne.
Qed.

Lemma lookup_evict_ts h t t' now : evict h t now !! ts_key t' = h !! ts_key t'.
Proof.
  apply lookup_evict_keep; [apply ts_key_ne_count_key|apply ts_key_not_stale].
Qed.

Lemma lookup_evict_bucket h t t' now b :
  evict h t now !! bucket_key t' b
  = if decide (count_key t' = count_key t ∧ b ∈ stale h t now)
    then None else h !! bucket_key t' b.
Proof.
  case_decide as Hd.
  - destruct Hd as [Hk Hb].
    destruct (h !! bucket_key t' b) as [v|] eqn:Hv.
    + apply lookup_evict_stale, elem_of_stale_fields. exists b.
      rewrite Hv. split_and!; [by apply bucket_key_eq_iff|done|done].
    + rewrite lookup_evict_keep; [done|apply bucket_key_ne_count_key|].
      intros (b' & _ & _ & [? ?])%elem_of_stale_fields. congruence.
  - apply lookup_evict_keep; [apply bucket_key_ne_count_key|].
    intros (b' & [? ->]%bucket_key_eq_iff & ? & _)%elem_of_stale_fields.
    tauto.
Qed.

Lemma evict_other h t t' now :
  count_key t' ≠ count_key t → same_fields t' (evict h t now) h.
Proof.
  intros Hne x. apply lookup_evict_keep.
  - rewrite <-(app_empty_r (count_key t)). by intros [? _]%field_eq_iff.
  - intros (b & [? _]%field_eq_iff & _)%elem_of_stale_fields. done.
Qed.

(** The views of a tier read its own fields only. *)
Section same_fields.
Context (t : tier) (h1 h2 : gmap string Z) (now : Z).
Hypothesis H : same_fields t h1 h2.

Lemma same_fields_count : h1 !! count_key t = h2 !! count_key t.
Proof. rewrite <-(app_empty_r (count_key t)). apply H. Qed.

Lemma same_fields_aggregate : aggregate h1 t = aggregate h2 t.
Proof. unfold aggregate. by rewrite same_fields_count. Qed.

Lemma same_fields_bucket b : bucket h1 t b = bucket h2 t b.
Proof. unfold bucket, bucket_key. by rewrite H. Qed.

Lemma same_fields_old_ts : old_ts h1 t now = old_ts h2 t now.
Proof. unfold old_ts, ts_key. by rewrite H. Qed.

Lemma same_fields_stale : stale h1 t now = stale h2 t now.
Proof. unfold stale. by rewrite same_fields_old_ts. Qed.

Lemma same_fields_stale_count : stale_count h1 t now = stale_count h2 t now.
Proof.
  unfold stale_count. rewrite same_fields_stale.
  apply foldr_ext; [|done..]. intros b acc. by rewrite same_fields_bucket.
Qed.

Lemma same_fields_remaining : remaining h1 t now = remaining h2 t now.
Proof.
  unfold remaining. by rewrite same_fields_aggregate, same_fields_stale_count.
Qed.
End same_fields.

(** Tiers with the same count key have the same views and cleanup. *)
Section same_key.
Context (t t' : tier) (h : gmap string Z) (now : Z).
Hypothesis K : count_key t = count_key t'.

Lemma same_key_ts_key : ts_key t = ts_key t'.
Proof. unfold ts_key. by rewrite K. Qed.

Lemma same_key_bucket_key b : bucket_key t b = bucket_key t' b.
Proof. unfold bucket_key. by rewrite K. Qed.

Lemma same_key_aggregate : aggregate h t = aggregate h t'.
Proof. unfold aggregate. by rewrite K. Qed.

Lemma same_key_old_ts : old_ts h t now = old_ts h t' now.
Proof.
  unfold old_ts. by rewrite same_key_ts_key, (same_key_trim_before _ _ _ K).
Qed.

Lemma same_key_stale : stale h t now = stale h t' now.
Proof.
  unfold stale.
  by rewrite same_key_old_ts, (same_key_trim_before _ _ _ K),
    (same_key_blocks _ _ K).
Qed.

Lemma same_key_stale_count : stale_count h t now = stale_count h t' now.
Proof.
  unfold stale_count, bucket. rewrite same_key_stale.
  apply foldr_ext; [|done..]. intros b acc. by rewrite same_key_bucket_key.
Qed.

Lemma same_key_remaining : remaining h t now = remaining h t' now.
Proof.
  unfold remaining. by rewrite same_key_aggregate, same_key_stale_count.
Qed.

Lemma same_key_stale_fields : stale_fields h t now = stale_fields h t' now.
Proof.
  unfold stale_fields. rewrite same_key_stale.
  rewrite (list_filter_iff _ (λ b, is_Some (h !! bucket_key t' b))).
  - apply list_fmap_ext. intros _ b _. apply same_key_bucket_key.
  - intros b. by rewrite same_key_bucket_key.
Qed.

Lemma same_key_evict : evict h t now = evict h t' now.
Proof.
  unfold evict. by rewrite same_key_stale_fields, same_key_remaining, K.
Qed.
End same_key.

(** The cleanup of one tier leaves the views of every tier as they would
    be read before it. *)
Lemma old_ts_evict h t t' now : old_ts (evict h t now) t' now = old_ts h t' now.
Proof. unfold old_ts. by rewrite lookup_evict_ts. Qed.

Lemma stale_evict h t t' now : stale (evict h t now) t' now = stale h t' now.
Proof. unfold stale. by rewrite old_ts_evict. Qed.

Lemma stale_count_evict_same h t now : stale_count (evict h t now) t now = 0.
Proof.
  unfold stale_count. rewrite stale_evict. apply sum_absent.
  intros b Hb. rewrite lookup_evict_bucket. by rewrite decide_True.
Qed.

Lemma remaining_evict h t t' now :
  remaining (evict h t now) t' now = remaining h t' now.
Proof.
  destruct (decide (count_key t' = count_key t)) as [K|K].
  - rewrite (same_key_remaining _ _ _ _ K), (same_key_remaining _ _ h _ K).
    unfold remaining at 1. rewrite stale_count_evict_same.
    unfold aggregate. rewrite lookup_evict_count_key. lia.
  - apply same_fields_remaining. by apply evict_other.
Qed.

Lemma violates_evict h t t' now w :
  violates (evict h t now) t' now w ↔ violates h t' now w.
Proof. unfold violates, regressed. by rewrite old_ts_evict, remaining_evict. Qed.

(** * The script, loop by loop *)

Lemma scan_spec key t now bs decr dele s :
  scan key (save t now) bs decr dele s
  = ((decr + foldr (λ b acc, bucket (hash s) t b + acc) 0 bs,
      dele ++ (bucket_key t <$>
                 filter (λ b, is_Some (hash s !! bucket_key t b)) bs)),
     Redis (hash s) (expiry s)
       (calls s ++ ((λ b, HGET key (bucket_key t b)) <$> bs))).
Proof.
  revert decr dele s. induction bs as [|b bs IH]; intros decr dele s.
  - simpl. step. rewrite !app_nil_r, Z.add_0_r. by destruct s.
  - simpl. step. fold (bucket_key t b). rewrite filter_cons.
    destruct (hash s !! bucket_key t b) as [c|] eqn:Hc.
    + rewrite IH. simpl.
      assert (bucket (hash s) t b = c) as -> by (unfold bucket; by rewrite Hc).
      rewrite <-!app_assoc, Z.add_assoc. done.
    + rewrite IH. simpl.
      assert (bucket (hash s) t b = 0) as -> by (unfold bucket; by rewrite Hc).
      rewrite <-!app_assoc, Z.add_0_l. done.
Qed.

Lemma check_limit_regressed key now w t s :
  regressed (hash s) t now →
  check_limit key now w t s
  = (inl 1, Redis (hash s) (expiry s) (calls s ++ [HGET key (ts_key t)])).
Proof.
  intros H. unfold check_limit. step.
  fold (old_ts (hash s) t now). by rewrite bool_decide_true.
Qed.

Lemma check_limit_spec key now w t s :
  ∃ e cs,
    check_limit key now w t s
    = (if decide (violates (hash s) t now w) then inl 1 else inr (save t now),
       Redis (if decide (regressed (hash s) t now) then hash s
              else evict (hash s) t now) e (calls s ++ cs)).
Proof.
  destruct (decide (regressed (hash s) t now)) as [Hr|Hr].
  { rewrite check_limit_regressed by done. eexists _, _.
    rewrite decide_True; [done|unfold violates; by left]. }
  unfold check_limit. step. fold (old_ts (hash s) t now).
  rewrite bool_decide_false by done.
  rewrite scan_spec. simpl.
  fold (stale (hash s) t now). fold (stale_count (hash s) t now).
  fold (stale_fields (hash s) t now).
  rewrite Z.add_0_l.
  assert (∀ P Q : Prop, ¬ P → (P ∨ Q) ↔ Q) as Hor by tauto.
  case_bool_decide as Hlen; cbn [hash expiry calls default].
  - assert (default 0 (foldr delete (hash s) (stale_fields (hash s) t now)
                         !! count_key t) + - stale_count (hash s) t now
            = remaining (hash s) t now) as ->.
    { rewrite lookup_foldr_delete_not_elem_of by apply count_key_not_stale.
      unfold remaining, aggregate. lia. }
    assert (evict (hash s) t now
            = <[count_key t := remaining (hash s) t now]>
                (foldr delete (hash s) (stale_fields (hash s) t now))) as ->.
    { unfold evict. destruct (stale_fields (hash s) t now); [|done].
      simpl in Hlen. lia. }
    eexists _, _. rewrite <-!app_assoc.
    destruct (decide (violates _ _ _ _)) as [[?|Hd]|Hd]; [done|..];
      case_bool_decide as Hv; unfold id in Hv; try done.
    destruct Hd. by right.
  - assert (stale_fields (hash s) t now = []) as Hnil.
    { destruct (stale_fields (hash s) t now); [done|]. simpl in Hlen. lia. }
    assert (evict (hash s) t now = hash s) as ->.
    { unfold evict. by rewrite Hnil. }
    fold (aggregate (hash s) t). rewrite <-(remaining_none _ _ now) by done.
    eexists _, _. rewrite <-!app_assoc.
    destruct (decide (violates _ _ _ _)) as [[?|Hd]|Hd]; [done|..];
      case_bool_decide as Hv; unfold id in Hv; try done.
    destruct Hd. by right.
Qed.

Lemma old_ts_evict_all h l t now :
  old_ts (evict_all h l now) t now = old_ts h t now.
Proof.
  revert h. induction l as [|t' l IH]; intros h; [done|].
  simpl. by rewrite IH, old_ts_evict.
Qed.

Lemma remaining_evict_all h l t now :
  remaining (evict_all h l now) t now = remaining h t now.
Proof.
  revert h. induction l as [|t' l IH]; intros h; [done|].
  simpl. by rewrite IH, remaining_evict.
Qed.

Lemma violates_evict_all h l t now w :
  violates (evict_all h l now) t now w ↔ violates h t now w.
Proof.
  unfold violates, regressed. by rewrite old_ts_evict_all, remaining_evict_all.
Qed.

Lemma lookup_evict_all_ts h l t now :
  evict_all h l now !! ts_key t = h !! ts_key t.
Proof.
  revert h. induction l as [|t' l IH]; intros h; [done|].
  simpl. by rewrite IH, lookup_evict_ts.
Qed.

Lemma check_limits_app key now w l1 l2 ld sk s :
  check_limits key now w (l1 ++ l2) ld sk s
  = match check_limits key now w l1 ld sk s with
    | (inl n, s1) => (inl n, s1)
    | (inr (ld', sk'), s1) => check_limits key now w l2 ld' sk' s1
    end.
Proof.
  revert ld sk s. induction l1 as [|t l1 IH]; intros ld sk s; [done|].
  simpl. unfold mbind, script_bind.
  destruct (check_limit key now w t s) as [[n|sv] s1]; [done|]. apply IH.
Qed.

Lemma check_limits_pass key now w l ld sk s :
  Forall (λ t, ¬ violates (hash s) t now w) l →
  ∃ e cs,
    check_limits key now w l ld sk s
    = (inr (foldl Z.max ld (duration <$> l), sk ++ ((λ t, save t now) <$> l)),
       Redis (evict_all (hash s) l now) e (calls s ++ cs)).
Proof.
  revert ld sk s. induction l as [|t l IH]; intros ld sk s Hl.
  - exists (expiry s), []. simpl. rewrite !app_nil_r. by destruct s.
  - apply Forall_cons in Hl as [Ht Hl]. simpl. unfold mbind, script_bind.
    destruct (check_limit_spec key now w t s) as (e1 & cs1 & ->).
    rewrite decide_False by done.
    rewrite decide_False by (unfold violates in Ht; tauto).
    edestruct (IH (Z.max ld (duration t)) (sk ++ [save t now])
                 (Redis (evict (hash s) t now) e1 (calls s ++ cs1)))
      as (e2 & cs2 & ->).
    { simpl. eapply Forall_impl; [done|]. intros t'. simpl.
      by rewrite violates_evict. }
    exists e2, (cs1 ++ cs2). simpl. by rewrite <-!app_assoc.
Qed.

Lemma check_limits_first key now w l1 v l2 ld sk s :
  Forall (λ t, ¬ violates (hash s) t now w) l1 →
  violates (hash s) v now w →
  ∃ ld' sk' s1,
    check_limits key now w l1 ld sk s = (inr (ld', sk'), s1) ∧
    hash s1 = evict_all (hash s) l1 now ∧
    check_limits key now w (l1 ++ v :: l2) ld sk s
    = (inl 1, (check_limit key now w v s1).2).
Proof.
  intros Hl Hv.
  destruct (check_limits_pass key now w l1 ld sk s Hl) as (e & cs & E).
  eexists _, _, _. split; [done|]. split; [done|].
  rewrite check_limits_app, E. simpl. unfold mbind, script_bind.
  destruct (check_limit_spec key now w v
              (Redis (evict_all (hash s) l1 now) e (calls s ++ cs)))
    as (e1 & cs1 & ->).
  simpl. rewrite decide_True; [done|]. by apply violates_evict_all.
Qed.

Lemma Exists_first {A} (P : A → Prop) `{!∀ x, Decision (P x)} (l : list A) :
  Exists P l → ∃ l1 v l2, l = l1 ++ v :: l2 ∧ Forall (λ x, ¬ P x) l1 ∧ P v.
Proof.
  induction l as [|x l IH]; intros HE; [by apply Exists_nil in HE|].
  destruct (decide (P x)) as [Hx|Hx].
  - by exists [], x, l.
  - apply Exists_cons in HE as [?|HE]; [done|].
    destruct (IH HE) as (l1 & v & l2 & -> & ? & ?).
    exists (x :: l1), v, l2. split_and!; [done| |done]. by constructor.
Qed.

(** The update pass. *)
Lemma update_counts_spec key now w l s :
  ∃ cs,
    update_counts key w ((λ t, save t now) <$> l) s
    = (tt, Redis (bump_all (hash s) l now w) (expiry s) (calls s ++ cs)).
Proof.
  revert s. induction l as [|t l IH]; intros s.
  - exists []. simpl. step. rewrite app_nil_r. by destruct s.
  - simpl. step.
    edestruct IH as (cs & ->). eexists. simpl.
    rewrite <-!app_assoc. done.
Qed.

Lemma overLimitCheck_pass key l now w s :
  l ≠ [] → Forall (λ t, ¬ violates (hash s) t now w) l →
  ∃ e cs,
    overLimitCheck key l now w s
    = (Return 0,
       Redis (bump_all (evict_all (hash s) l now) l now w) e (calls s ++ cs)).
Proof.
  intros Hne Hl. destruct l as [|first rest]; [done|].
  unfold overLimitCheck, mbind, script_bind.
  destruct (check_limits_pass key now w (first :: rest) (duration first) [] s Hl)
    as (e & cs & ->).
  destruct (update_counts_spec key now w (first :: rest)
              (Redis (evict_all (hash s) (first :: rest) now) e (calls s ++ cs)))
    as (cs2 & E).
  rewrite app_nil_l, E. cbn [hash expiry calls].
  case_bool_decide; unfold expire, mret, script_ret; cbn [hash expiry calls];
    eexists _, _; rewrite <-?app_assoc; done.
Qed.

Lemma overLimitCheck_first key l1 v l2 now w s :
  Forall (λ t, ¬ violates (hash s) t now w) l1 →
  violates (hash s) v now w →
  ∃ ld sk s1,
    check_limits key now w l1 (duration (hd v l1)) [] s = (inr (ld, sk), s1) ∧
    hash s1 = evict_all (hash s) l1 now ∧
    overLimitCheck key (l1 ++ v :: l2) now w s
    = (Return 1, (check_limit key now w v s1).2).
Proof.
  intros Hl Hv.
  destruct (check_limits_first key now w l1 v l2 (duration (hd v l1)) [] s Hl Hv)
    as (ld & sk & s1 & E1 & Hh & E).
  exists ld, sk, s1. split_and!; [done..|].
  unfold overLimitCheck.
  destruct l1 as [|first rest]; rewrite <-?app_comm_cons, ?app_nil_l in *;
    simpl hd in *; unfold mbind at 1, script_bind at 1; by rewrite E.
Qed.

(** The reply is 1 exactly when some tier turns the call down. *)
Lemma overLimitCheck_reply key l now w s :
  l ≠ [] →
  (overLimitCheck key l now w s).1
  = if decide (Exists (λ t, violates (hash s) t now w) l)
    then Return 1 else Return 0.
Proof.
  intros Hne. case_decide as HE.
  - apply Exists_first in HE as (l1 & v & l2 & -> & Hl & Hv); [|apply _].
    destruct (overLimitCheck_first key l1 v l2 now w s Hl Hv)
      as (? & ? & ? & _ & _ & ->). done.
  - apply not_Exists_Forall in HE; [|apply _].
    destruct (overLimitCheck_pass key l now w s Hne HE) as (? & ? & ->). done.
Qed.

(** * The update of one tier as a function of the hash *)

Lemma bump_eq h t now w :
  bump h t now w
  = <[bucket_key t (block_id t now) := bucket h t (block_id t now) + w]>
      (<[count_key t := aggregate h t + w]>
         (<[ts_key t := trim_before t now]> h)).
Proof.
  unfold bump, aggregate, bucket.
  rewrite (lookup_insert_ne _ (ts_key t) (count_key t))
    by apply ts_key_ne_count_key.
  rewrite (lookup_insert_ne _ (count_key t) (bucket_key t _))
    by (apply not_eq_sym, bucket_key_ne_count_key).
  rewrite (lookup_insert_ne _ (ts_key t) (bucket_key t _))
    by (apply not_eq_sym, bucket_key_ne_ts_key).
  done.
Qed.

Lemma aggregate_bump h t t' now w :
  aggregate (bump h t now w) t'
  = aggregate h t' + (if decide (count_key t' = count_key t) then w else 0).
Proof.
  rewrite bump_eq. unfold aggregate.
  rewrite lookup_insert_ne by apply bucket_key_ne_count_key.
  case_decide as K.
  - by rewrite K, lookup_insert_eq.
  - rewrite lookup_insert_ne by done.
    rewrite lookup_insert_ne by apply ts_key_ne_count_key. lia.
Qed.

Lemma bucket_bump h t t' now w b :
  bucket (bump h t now w) t' b
  = bucket h t' b
    + (if decide (count_key t' = count_key t ∧ b = block_id t now)
       then w else 0).
Proof.
  rewrite bump_eq. unfold bucket. case_decide as K.
  - destruct K as [K ->].
    rewrite <-(same_key_bucket_key _ _ K), lookup_insert_eq. done.
  - rewrite lookup_insert_ne.
    2:{ intros [? ?]%bucket_key_eq_iff. by destruct K. }
    rewrite lookup_insert_ne by (apply not_eq_sym, bucket_key_ne_count_key).
    rewrite lookup_insert_ne by (apply not_eq_sym, bucket_key_ne_ts_key). lia.
Qed.

Lemma lookup_bump_ts h t t' now w :
  bump h t now w !! ts_key t'
  = if decide (count_key t' = count_key t)
    then Some (trim_before t now) else h !! ts_key t'.
Proof.
  rewrite bump_eq.
  rewrite lookup_insert_ne by apply bucket_key_ne_ts_key.
  rewrite lookup_insert_ne by (apply not_eq_sym, ts_key_ne_count_key).
  case_decide as K.
  - by rewrite <-(same_key_ts_key _ _ K), lookup_insert_eq.
  - rewrite lookup_insert_ne; [done|].
    unfold ts_key. by intros [? _]%field_eq_iff.
Qed.

Lemma sharing_cons t t' l :
  sharing t (t' :: l)
  = (if decide (count_key t' = count_key t) then 1 else 0) + sharing t l.
Proof.
  unfold sharing. rewrite filter_cons. case_decide; simpl length; lia.
Qed.



Lemma aggregate_bump_all h l t now w :
  aggregate (bump_all h l now w) t = aggregate h t + w * sharing t l.
Proof.
  revert h. induction l as [|t' l IH]; intros h.
  - unfold sharing. simpl. lia.
  - simpl. rewrite IH, aggregate_bump, sharing_cons.
    destruct (decide (count_key t = count_key t')) as [K|K].
    + rewrite decide_True by done. lia.
    + rewrite decide_False by done. lia.
Qed.

Lemma bucket_bump_all h l t now w b :
  bucket (bump_all h l now w) t b
  = bucket h t b + (if decide (b = block_id t now) then w * sharing t l else 0).
Proof.
  revert h. induction l as [|t' l IH]; intros h.
  - unfold sharing. simpl. case_decide; lia.
  - simpl. rewrite IH, bucket_bump, sharing_cons.
    destruct (decide (count_key t = count_key t')) as [K|K].
    + rewrite (decide_True (P := count_key t' = count_key t)) by done.
      rewrite <-(same_key_block_id _ _ now K).
      destruct (decide (b = block_id t now)) as [->|?].
      * rewrite decide_True by done. lia.
      * rewrite decide_False by tauto. lia.
    + rewrite (decide_False (P := count_key t' = count_key t)) by done.
      rewrite decide_False by tauto. case_decide; lia.
Qed.

Lemma lookup_bump_all_ts h l t now w :
  t ∈ l → bump_all h l now w !! ts_key t = Some (trim_before t now).
Proof.
  intros Ht. revert h.
  assert (∀ l h, bump_all h l now w !! ts_key t = Some (trim_before t now) ∨
                 (bump_all h l now w !! ts_key t = h !! ts_key t ∧ t ∉ l))
    as Hgen.
  { clear. intros l. induction l as [|t' l IH]; intros h.
    - right. split; [done|]. apply not_elem_of_nil.
    - simpl. destruct (IH (bump h t' now w)) as [?|[E Hn]]; [by left|].
      rewrite E, lookup_bump_ts. case_decide as K.
      + left. by rewrite (same_key_trim_before _ _ _ K).
      + right. split; [done|]. intros [->|?]%elem_of_cons; done. }
  intros h. destruct (Hgen l h) as [?|[_ ?]]; done.
Qed.

(** * The sum of the live buckets *)

Lemma bucket_sum_empty t : bucket_sum ∅ t = 0.
Proof. unfold bucket_sum. by rewrite map_fold_empty. Qed.

Lemma bucket_sum_insert_fresh h t f v :
  h !! f = None → bucket_sum (<[f := v]> h) t = share t f v + bucket_sum h t.
Proof.
  intros Hf. unfold bucket_sum, share. rewrite map_fold_insert_L; [|
    intros j1 j2 z1 z2 y _ _ _; repeat case_match; lia|done].
  case_match; lia.
Qed.

Lemma bucket_sum_delete h t f :
  bucket_sum (delete f h) t = bucket_sum h t - share t f (default 0 (h !! f)).
Proof.
  destruct (h !! f) as [v|] eqn:Hf.
  - rewrite <-(insert_delete_id h f v) at 2 by done.
    rewrite bucket_sum_insert_fresh by apply lookup_delete_eq. simpl. lia.
  - rewrite delete_id by done. unfold share. simpl. case_match; lia.
Qed.

Lemma bucket_sum_insert h t f v :
  bucket_sum (<[f := v]> h) t
  = bucket_sum h t + share t f v - share t f (default 0 (h !! f)).
Proof.
  rewrite <-insert_delete_eq.
  rewrite bucket_sum_insert_fresh by apply lookup_delete_eq.
  rewrite bucket_sum_delete. lia.
Qed.

Lemma bucket_sum_insert_other h t f v :
  bucket_of t f = false → bucket_sum (<[f := v]> h) t = bucket_sum h t.
Proof. intros Hf. rewrite bucket_sum_insert. unfold share. rewrite Hf. lia. Qed.

Lemma bucket_sum_bump h t t' now w :
  bucket_sum (bump h t now w) t'
  = bucket_sum h t' + (if decide (count_key t' = count_key t) then w else 0).
Proof.
  rewrite bump_eq, bucket_sum_insert.
  rewrite lookup_insert_ne by (apply not_eq_sym, bucket_key_ne_count_key).
  rewrite lookup_insert_ne by (apply not_eq_sym, bucket_key_ne_ts_key).
  rewrite bucket_sum_insert_other by apply bucket_of_count_key.
  rewrite bucket_sum_insert_other by apply bucket_of_ts_key.
  unfold share. rewrite bucket_of_bucket_key. fold (bucket h t (block_id t now)).
  case_bool_decide; repeat case_decide; try done; lia.
Qed.

Lemma bucket_sum_foldr_delete h t fs :
  NoDup fs →
  bucket_sum (foldr delete h fs) t
  = bucket_sum h t - foldr (λ f acc, share t f (default 0 (h !! f)) + acc) 0 fs.
Proof.
  induction 1 as [|f fs Hf _ IH]; simpl; [lia|].
  rewrite bucket_sum_delete, IH.
  rewrite lookup_foldr_delete_not_elem_of by done. lia.
Qed.

Lemma NoDup_stale_fields h t now : NoDup (stale_fields h t now).
Proof.
  unfold stale_fields. apply NoDup_fmap_2_strong.
  - intros b b' _ _ [_ ?]%bucket_key_eq_iff. done.
  - apply NoDup_filter, NoDup_seqZ.
Qed.

Lemma share_stale_fields h t t' now :
  foldr (λ f acc, share t' f (default 0 (h !! f)) + acc) 0 (stale_fields h t now)
  = if decide (count_key t' = count_key t) then stale_count h t now else 0.
Proof.
  unfold stale_fields, stale_count.
  induction (stale h t now) as [|b bs IH]; simpl.
  - case_decide; done.
  - rewrite filter_cons. unfold bucket at 1.
    destruct (h !! bucket_key t b) as [v|] eqn:Hv.
    + rewrite decide_True by (by eexists). rewrite fmap_cons. cbn [foldr].
      rewrite IH, Hv. unfold share. rewrite bucket_of_bucket_key. simpl.
      case_bool_decide; repeat case_decide; try done; lia.
    + rewrite decide_False by (by intros [? ?]). rewrite IH. simpl.
      case_decide; lia.
Qed.

Lemma bucket_sum_evict h t t' now :
  bucket_sum (evict h t now) t'
  = bucket_sum h t'
    - (if decide (count_key t' = count_key t) then stale_count h t now else 0).
Proof.
  pose proof (share_stale_fields h t t' now) as Hs.
  pose proof (bucket_sum_foldr_delete h t' _ (NoDup_stale_fields h t now)) as Hd.
  pose proof (stale_count_none h t now) as Hn.
  unfold evict. destruct (stale_fields h t now) eqn:E.
  - rewrite Hn by done. case_decide; lia.
  - rewrite bucket_sum_insert_other by apply bucket_of_count_key. lia.
Qed.

Lemma aggregate_evict h t t' now :
  aggregate (evict h t now) t'
  = aggregate h t'
    - (if decide (count_key t' = count_key t) then stale_count h t now else 0).
Proof.
  case_decide as K.
  - rewrite (same_key_aggregate _ _ _ K), (same_key_aggregate _ _ h K).
    unfold aggregate at 1. rewrite lookup_evict_count_key. done.
  - rewrite (same_fields_aggregate _ _ _ (evict_other _ _ _ _ K)). lia.
Qed.

(** * The Counter Record invariant *)

Lemma consistent_empty : consistent ∅.
Proof. intros t. by rewrite bucket_sum_empty. Qed.

Lemma consistent_evict h t now : consistent h → consistent (evict h t now).
Proof. intros H t'. by rewrite aggregate_evict, bucket_sum_evict, H. Qed.

Lemma consistent_bump h t now w : consistent h → consistent (bump h t now w).
Proof. intros H t'. by rewrite aggregate_bump, bucket_sum_bump, H. Qed.

Lemma consistent_evict_all h l now :
  consistent h → consistent (evict_all h l now).
Proof.
  revert h. induction l as [|t l IH]; intros h H; [done|].
  simpl. by apply IH, consistent_evict.
Qed.

Lemma consistent_bump_all h l now w :
  consistent h → consistent (bump_all h l now w).
Proof.
  revert h. induction l as [|t l IH]; intros h H; [done|].
  simpl. by apply IH, consistent_bump.
Qed.

Lemma bucket_of_ne_count_key t t' f : bucket_of t f = true → f ≠ count_key t'.
Proof. intros H ->. by rewrite bucket_of_count_key in H. Qed.

Lemma nonneg_empty : buckets_nonneg ∅.
Proof. intros t f v. by rewrite lookup_empty. Qed.

Lemma nonneg_evict h t now : buckets_nonneg h → buckets_nonneg (evict h t now).
Proof.
  intros H t' f v Hf Hb. apply (H t' f v); [|done].
  destruct (decide (f ∈ stale_fields h t now)) as [Hs|Hs].
  - by rewrite lookup_evict_stale in Hf.
  - rewrite lookup_evict_keep in Hf; [done| |done].
    by apply (bucket_of_ne_count_key t').
Qed.

Lemma nonneg_bump h t now w :
  0 ≤ w → buckets_nonneg h → buckets_nonneg (bump h t now w).
Proof.
  intros Hw H t' f v. rewrite bump_eq.
  intros Hf Hb. apply lookup_insert_Some in Hf as [[<- <-]|[_ Hf]].
  - assert (0 ≤ bucket h t (block_id t now)); [|lia].
    unfold bucket. destruct (h !! _) as [c|] eqn:Hc; simpl; [|done].
    apply (H t _ c Hc). rewrite bucket_of_bucket_key. by apply bool_decide_true.
  - apply lookup_insert_Some in Hf as [[<- <-]|[_ Hf]].
    { by rewrite bucket_of_count_key in Hb. }
    apply lookup_insert_Some in Hf as [[<- <-]|[_ Hf]].
    { by rewrite bucket_of_ts_key in Hb. }
    by apply (H t' f v).
Qed.

Lemma nonneg_evict_all h l now :
  buckets_nonneg h → buckets_nonneg (evict_all h l now).
Proof.
  revert h. induction l as [|t l IH]; intros h H; [done|].
  simpl. by apply IH, nonneg_evict.
Qed.

Lemma nonneg_bump_all h l now w :
  0 ≤ w → buckets_nonneg h → buckets_nonneg (bump_all h l now w).
Proof.
  intros Hw. revert h. induction l as [|t l IH]; intros h H; [done|].
  simpl. by apply IH, nonneg_bump.
Qed.

(** Every call leaves a hash that the two loops determine. *)
Lemma overLimitCheck_hash key l now w s :
  ∃ l1 l2, hash (overLimitCheck key l now w s).2
           = bump_all (evict_all (hash s) l1 now) l2 now w
           ∧ (l2 = [] ∨ (l1 = l ∧ l2 = l)).
Proof.
  destruct l as [|first rest] eqn:El.
  { exists [], []. by split; [|left]. }
  rewrite <-El. assert (l ≠ []) as Hne by (by rewrite El).
  destruct (decide (Exists (λ t, violates (hash s) t now w) l)) as [HE|HE].
  - apply Exists_first in HE as (l1 & v & l2 & E & Hl & Hv); [|apply _].
    rewrite E.
    destruct (overLimitCheck_first key l1 v l2 now w s Hl Hv)
      as (ld & sk & s1 & _ & Hh & ->).
    destruct (check_limit_spec key now w v s1) as (e & cs & ->). simpl.
    case_decide.
    + exists l1, []. by split; [|left].
    + exists (l1 ++ [v]), []. split; [|by left].
      unfold evict_all. by rewrite foldl_app, Hh.
  - apply not_Exists_Forall in HE; [|apply _].
    destruct (overLimitCheck_pass key l now w s Hne HE) as (e & cs & ->).
    exists l, l. split; [done|]. by right.
Qed.

Lemma reachable_consistent W key s :
  reachable_with W key s → consistent (hash s).
Proof.
  induction 1 as [|s l now w _ IH _|s _ _].
  - apply consistent_empty.
  - destruct (overLimitCheck_hash key l now w s) as (l1 & l2 & -> & _).
    by apply consistent_bump_all, consistent_evict_all.
  - apply consistent_empty.
Qed.

Lemma reachable_nonneg key s :
  reachable_with (λ w, 0 ≤ w) key s → buckets_nonneg (hash s).
Proof.
  induction 1 as [|s l now w _ IH Hw|s _ _].
  - apply nonneg_empty.
  - destruct (overLimitCheck_hash key l now w s) as (l1 & l2 & -> & _).
    by apply nonneg_bump_all, nonneg_evict_all.
  - apply nonneg_empty.
Qed.

Lemma elem_of_stale h t now b :
  b ∈ stale h t now → old_ts h t now ≤ b < trim_before t now.
Proof. unfold stale. rewrite elem_of_seqZ. lia. Qed.

Lemma bucket_evict_keep h t t' now b :
  b ∉ stale h t' now → bucket (evict h t now) t' b = bucket h t' b.
Proof.
  intros Hb. unfold bucket. rewrite lookup_evict_bucket.
  case_decide as K; [|done]. destruct K as [K ?].
  by rewrite (same_key_stale _ _ h now K) in Hb.
Qed.

Lemma bucket_evict_all_keep h l t now b :
  b ∉ stale h t now → bucket (evict_all h l now) t b = bucket h t b.
Proof.
  revert h. induction l as [|t' l IH]; intros h Hb; [done|].
  simpl. rewrite IH by (by rewrite stale_evict). by apply bucket_evict_keep.
Qed.

Lemma bucket_sum_nonneg h t : buckets_nonneg h → 0 ≤ bucket_sum h t.
Proof.
  unfold bucket_sum.
  apply (map_fold_weak_ind (λ r m, buckets_nonneg m → 0 ≤ r)); [done|].
  intros f v m r Hf IH H.
  assert (0 ≤ r).
  { apply IH. intros t' f' v' Hf'. apply (H t' f' v').
    rewrite lookup_insert_ne; [done|]. intros ->. congruence. }
  destruct (bucket_of t f) eqn:Hb; [|done].
  assert (0 ≤ v); [|lia]. apply (H t f v); [|done]. apply lookup_insert_eq.
Qed.

Lemma nonneg_delete h f : buckets_nonneg h → buckets_nonneg (delete f h).
Proof.
  intros H t f' v [_ Hf]%lookup_delete_Some. by apply (H t f' v).
Qed.

Lemma held_delete h t b bs :
  b ∉ bs → held (delete (bucket_key t b) h) t bs = held h t bs.
Proof.
  induction bs as [|b' bs IH]; [done|].
  intros [? ?]%not_elem_of_cons. simpl. rewrite IH by done.
  unfold bucket. rewrite lookup_delete_ne; [done|].
  intros [_ ?]%bucket_key_eq_iff. done.
Qed.

(** Distinct buckets hold no more than the sum of all live buckets. *)
Lemma held_le_bucket_sum h t bs :
  NoDup bs → buckets_nonneg h → held h t bs ≤ bucket_sum h t.
Proof.
  intros Hbs. revert h. induction Hbs as [|b bs Hb _ IH]; intros h H.
  - by apply bucket_sum_nonneg.
  - simpl. specialize (IH _ (nonneg_delete h (bucket_key t b) H)).
    rewrite held_delete, bucket_sum_delete in IH by done.
    unfold share in IH. rewrite bucket_of_bucket_key in IH.
    rewrite bool_decide_true in IH by done.
    fold (bucket h t b) in IH. lia.
Qed.

Lemma held_app h t bs1 bs2 :
  held h t (bs1 ++ bs2) = held h t bs1 + held h t bs2.
Proof. induction bs1 as [|b bs1 IH]; simpl; lia. Qed.


(** The aggregate that a consistent record keeps after the cleanup is at
    least what the buckets outside the stale range hold. *)
Lemma remaining_ge_held h t now bs :
  consistent h → buckets_nonneg h → NoDup bs →
  (∀ b, b ∈ bs → trim_before t now ≤ b) →
  held h t bs ≤ remaining h t now.
Proof.
  intros Hc Hn Hbs Hw. unfold remaining. rewrite Hc.
  assert (NoDup (stale h t now ++ bs)) as Hnd.
  { apply NoDup_app. split_and!; [apply NoDup_seqZ| |done].
    intros b Hs%elem_of_stale Hb%Hw. lia. }
  pose proof (held_le_bucket_sum h t _ Hnd Hn) as Hle.
  rewrite held_app in Hle.
  change (stale_count h t now) with (held h t (stale h t now)). lia.
Qed.



(** * Sequences of calls *)





(** * The script: windows, tiers, invariant, empty list, clock *)



Lemma precision_pos t : tier_ok t → 0 < precision t.
Proof.
  intros [Hd Hp]. unfold precision. destruct (limit3 t) as [p|]; simpl.
  - specialize (Hp p eq_refl). lia.
  - lia.
Qed.

Lemma blocks_pos t : tier_ok t → 0 < blocks t.
Proof.
  intros Hok. pose proof (precision_pos t Hok) as Hp. destruct Hok as [Hd _].
  unfold blocks, ceil_div.
  assert ((- duration t) `div` precision t < 0); [|lia].
  apply Z.div_lt_upper_bound; lia.
Qed.

Lemma trim_before_le t now : tier_ok t → trim_before t now ≤ block_id t now.
Proof. intros ?%blocks_pos. unfold trim_before. lia. Qed.

Lemma block_id_not_stale h t now :
  tier_ok t → block_id t now ∉ stale h t now.
Proof. intros ?%(trim_before_le _ now) ?%elem_of_stale. lia. Qed.

Lemma aggregate_evict_all h l t now :
  aggregate (evict_all h l now) t = aggregate h t ∨
  aggregate (evict_all h l now) t = remaining h t now.
Proof.
  revert h. induction l as [|t' l IH]; intros h; [by left|].
  simpl. destruct (IH (evict h t' now)) as [->| ->].
  - rewrite aggregate_evict. case_decide as K; [right|left; lia].
    unfold remaining. by rewrite (same_key_stale_count _ _ _ _ K).
  - right. apply remaining_evict.
Qed.

Lemma lookup_evict_all_bucket h l t now b :
  evict_all h l now !! bucket_key t b = h !! bucket_key t b ∨
  evict_all h l now !! bucket_key t b = None.
Proof.
  revert h. induction l as [|t' l IH]; intros h; [by left|].
  simpl. destruct (IH (evict h t' now)) as [->| ->]; [|by right].
  rewrite lookup_evict_bucket. case_decide; [by right|by left].
Qed.

Lemma stale_evict_all h l t now :
  stale (evict_all h l now) t now = stale h t now.
Proof. unfold stale. by rewrite old_ts_evict_all. Qed.

Lemma lookup_evict_all_stale h l t now b :
  t ∈ l → b ∈ stale h t now → evict_all h l now !! bucket_key t b = None.
Proof.
  revert h. induction l as [|t' l IH]; intros h Ht Hb.
  { by apply not_elem_of_nil in Ht. }
  simpl. apply elem_of_cons in Ht as [<-|Ht].
  - destruct (lookup_evict_all_bucket (evict h t now) l t now b)
      as [->| ->]; [|done].
    rewrite lookup_evict_bucket. by rewrite decide_True.
  - apply IH; [done|]. by rewrite stale_evict.
Qed.

(** After the first loop the aggregate of a tier of the list is what the
    cleanup leaves of it. *)
Lemma aggregate_evict_all_in h l t now :
  t ∈ l → aggregate (evict_all h l now) t = remaining h t now.
Proof.
  intros Ht. rewrite <-(remaining_evict_all h l t now).
  unfold remaining, stale_count. rewrite stale_evict_all.
  rewrite sum_absent; [lia|].
  intros b Hb. by apply lookup_evict_all_stale.
Qed.

Lemma overLimitCheck_denied_hash key l now w s :
  (overLimitCheck key l now w s).1 = Return 1 →
  ∃ l', hash (overLimitCheck key l now w s).2 = evict_all (hash s) l' now.
Proof.
  destruct (decide (l = [])) as [->|Hne]; [done|].
  rewrite overLimitCheck_reply by done. case_decide as HE; [|done]. intros _.
  apply Exists_first in HE as (l1 & v & l2 & -> & Hl & Hv); [|apply _].
  destruct (overLimitCheck_first key l1 v l2 now w s Hl Hv)
    as (ld & sk & s1 & _ & Hh & ->).
  destruct (check_limit_spec key now w v s1) as (e & cs & ->). simpl.
  case_decide.
  - by exists l1.
  - exists (l1 ++ [v]). unfold evict_all. by rewrite foldl_app, Hh.
Qed.

(** C2. One call against several tiers.  (a) The reply is 1 or 0, and it is
    1 exactly when some tier of the list, read on the record as the call
    found it, has its clock regressed or has no room for the weight after
    its cleanup.  (b) An allowed call sets, for every tier of the list, the
    aggregate to the cleaned aggregate plus the weight and adds the weight
    to the current bucket, once per list entry that shares the tier's
    fields, and stores the new timestamp.  (c) A denied call leaves every
    timestamp alone, leaves every aggregate as it was or as the cleanup
    makes it, and leaves every bucket as it was or deleted.  (d) The call
    stops at the first violating tier: it is the same call, reply, record
    and commands, as with the list cut after that tier. *)
Theorem multi_tier_call key limits now weight s :
  limits ≠ [] → Forall tier_ok limits →
  let r := (overLimitCheck key limits now weight s).1 in
  let s' := (overLimitCheck key limits now weight s).2 in
  ((r = Return 1 ↔ Exists (λ t, violates (hash s) t now weight) limits)
   ∧ (r = Return 0 ∨ r = Return 1))
  ∧ (r = Return 0 → ∀ t, t ∈ limits →
       aggregate (hash s') t
       = remaining (hash s) t now + weight * sharing t limits
       ∧ bucket (hash s') t (block_id t now)
         = bucket (hash s) t (block_id t now) + weight * sharing t limits
       ∧ hash s' !! ts_key t = Some (trim_before t now))
  ∧ (r = Return 1 → ∀ t,
       hash s' !! ts_key t = hash s !! ts_key t
       ∧ (aggregate (hash s') t = aggregate (hash s) t
          ∨ aggregate (hash s') t = remaining (hash s) t now)
       ∧ ∀ b, hash s' !! bucket_key t b = hash s !! bucket_key t b
              ∨ hash s' !! bucket_key t b = None)
  ∧ (∀ l1 v l2, limits = l1 ++ v :: l2 →
       Forall (λ t, ¬ violates (hash s) t now weight) l1 →
       violates (hash s) v now weight →
       overLimitCheck key limits now weight s
       = overLimitCheck key (l1 ++ [v]) now weight s).
Proof.
  intros Hne Hok r s'. subst r s'. split_and!.
  - rewrite overLimitCheck_reply by done. case_decide; naive_solver.
  - rewrite overLimitCheck_reply by done. case_decide; auto.
  - rewrite overLimitCheck_reply by done. case_decide as HE; [done|].
    intros _ t Ht. apply not_Exists_Forall in HE; [|apply _].
    destruct (overLimitCheck_pass key limits now weight s Hne HE)
      as (e & cs & ->). simpl.
    rewrite aggregate_bump_all, bucket_bump_all, decide_True by done.
    rewrite lookup_bump_all_ts by done.
    rewrite bucket_evict_all_keep.
    2:{ apply block_id_not_stale. by eapply Forall_forall in Hok. }
    by rewrite aggregate_evict_all_in.
  - intros Hr t.
    destruct (overLimitCheck_denied_hash key limits now weight s Hr)
      as (l' & ->).
    split_and!.
    + apply lookup_evict_all_ts.
    + apply aggregate_evict_all.
    + intros b. apply lookup_evict_all_bucket.
  - intros l1 v l2 -> Hl Hv.
    destruct (overLimitCheck_first key l1 v l2 now weight s Hl Hv)
      as (ld & sk & s1 & E1 & _ & ->).
    destruct (overLimitCheck_first key l1 v [] now weight s Hl Hv)
      as (ld' & sk' & s1' & E1' & _ & ->).
    congruence.
Qed.

(** C3. The aggregate of every tier is the sum of its live buckets in every
    state that calls of the script can reach, and one more call, whatever
    its tiers, time, weight and reply, keeps it so. *)
Theorem aggregate_is_sum_of_live_buckets key s t :
  reachable key s →
  aggregate (hash s) t = bucket_sum (hash s) t
  ∧ ∀ limits now weight,
      let s' := (overLimitCheck key limits now weight s).2 in
      aggregate (hash s') t = bucket_sum (hash s') t.
Proof.
  intros Hs. split.
  - by apply (reachable_consistent (λ _, True) key).
  - intros limits now weight s'. subst s'.
    apply (reachable_consistent (λ _, True) key). by apply reach_call.
Qed.

(** The invariant is kept from any record that has it, reachable or not. *)
Lemma overLimitCheck_consistent key limits now weight s :
  consistent (hash s) →
  consistent (hash (overLimitCheck key limits now weight s).2).
Proof.
  intros H.
  destruct (overLimitCheck_hash key limits now weight s) as (l1 & l2 & -> & _).
  by apply consistent_bump_all, consistent_evict_all.
Qed.

(** C4. With an empty tier list the script stops with a runtime error at
    its first statement that reads [limits[1][1]]: it returns neither 0
    nor 1, sends no command and leaves the record and its expiry alone. *)
Theorem empty_tier_list_raises key now weight s :
  overLimitCheck key [] now weight s = (LuaError, s).
Proof. reflexivity. Qed.

Lemma check_limits_inl key now w l ld sk s n :
  (check_limits key now w l ld sk s).1 = inl n → n = 1.
Proof.
  revert ld sk s. induction l as [|t l IH]; intros ld sk s; [done|].
  simpl. unfold mbind, script_bind.
  destruct (check_limit_spec key now w t s) as (e & cs & ->).
  case_decide; [by intros [= <-]|]. apply IH.
Qed.

Lemma same_fields_regressed t h1 h2 now :
  same_fields t h1 h2 → regressed h1 t now ↔ regressed h2 t now.
Proof. intros H. unfold regressed. by rewrite (same_fields_old_ts t h1 h2). Qed.

(** While the clock of a tier is regressed, the first loop leaves the fields
    of that tier alone, whatever tiers it goes through. *)
Lemma check_limits_regressed_frame key now w l ld sk s t :
  regressed (hash s) t now →
  same_fields t (hash (check_limits key now w l ld sk s).2) (hash s).
Proof.
  revert ld sk s. induction l as [|t' l IH]; intros ld sk s Hr; [done|].
  simpl. unfold mbind, script_bind.
  destruct (check_limit_spec key now w t' s) as (e & cs & ->).
  assert (same_fields t
            (if decide (regressed (hash s) t' now) then hash s
             else evict (hash s) t' now) (hash s)) as Hsame.
  { case_decide as Hr'; [by intros ?|]. apply evict_other. intros K.
    apply Hr'. unfold regressed in *. by rewrite <-(same_key_old_ts _ _ _ _ K). }
  destruct (decide (violates (hash s) t' now w)); [exact Hsame|].
  intros x. rewrite IH; [by apply Hsame|]. simpl.
  by apply (same_fields_regressed t _ (hash s)).
Qed.

Lemma overLimitCheck_unfold key l first now w s :
  head l = Some first →
  overLimitCheck key l now w s
  = match check_limits key now w l (duration first) [] s with
    | (inl n, s') => (Return n, s')
    | (inr (ld, sk), s') =>
        (_ ← update_counts key w sk;
         _ ← (if bool_decide (ld > 0) then expire key ld else mret tt);
         mret (Return 0)) s'
    end.
Proof.
  destruct l as [|first' rest]; intros [= ->].
  unfold overLimitCheck, mbind at 1, script_bind at 1.
  destruct (check_limits _ _ _ _ _ _ _) as [[?|[??]] ?]; reflexivity.
Qed.

(** C5. A tier whose stored timestamp is ahead of the clock makes the call
    return 1, not an error.  The record and the commands are those of the
    first loop over the tiers before it, followed by the one read of the
    timestamp if the loop got that far: nothing is written for the tier or
    for the tiers after it, and every field of the tier is as it was. *)
Theorem clock_regression_denies key l1 t l2 now weight s ts :
  hash s !! ts_key t = Some ts → ts > now →
  let r1 := (check_limits key now weight l1 (duration (hd t l1)) [] s).1 in
  let s1 := (check_limits key now weight l1 (duration (hd t l1)) [] s).2 in
  overLimitCheck key (l1 ++ t :: l2) now weight s
  = (Return 1,
     match r1 with
     | inl _ => s1
     | inr _ => Redis (hash s1) (expiry s1) (calls s1 ++ [HGET key (ts_key t)])
     end)
  ∧ ∀ x, hash s1 !! (count_key t +:+ x) = hash s !! (count_key t +:+ x).
Proof.
  intros Hts Hgt r1 s1.
  assert (regressed (hash s) t now) as Hr.
  { unfold regressed, old_ts. by rewrite Hts. }
  pose proof (check_limits_regressed_frame key now weight l1
                (duration (hd t l1)) [] s t Hr) as Hframe.
  split; [|done].
  pose proof (check_limits_inl key now weight l1 (duration (hd t l1)) [] s)
    as Hinl.
  pose proof (check_limits_app key now weight l1 (t :: l2)
                (duration (hd t l1)) [] s) as Happ.
  rewrite (overLimitCheck_unfold key (l1 ++ t :: l2) (hd t l1))
    by (by destruct l1).
  rewrite Happ. subst r1 s1.
  destruct (check_limits key now weight l1 _ [] s) as [[n|[ld sk]] s'] eqn:E;
    simpl in *.
  - by rewrite (Hinl n eq_refl).
  - unfold mbind, script_bind. rewrite check_limit_regressed; [done|].
    by apply (same_fields_regressed t _ (hash s)).
Qed.

(** * The class: dispatch, cache, keys, sentinel *)

Module GuardiniProofs.
Import Guardini.

(** ** The paths of [check] in closed form *)

(** One call of [this.lua.overLimitCheck] at the current time. *)
Lemma run_counter w key limits :
  run w (now (λ ts, lua_overLimitCheck key limits ts 1))
  = match script_load w with
    | None =>
        ([ReqScript key limits (seconds w) 1],
         [script_verdict (script_reply w key limits (seconds w) 1)])
    | Some _ => ([], [])
    end.
Proof.
  simpl. fold (seconds w). destruct (script_load w); [done|]. simpl.
  by destruct (script_reply _ _ _ _ _).
Qed.

Lemma throws_counter w key limits :
  throws w (now (λ ts, lua_overLimitCheck key limits ts 1))
  = bool_decide (is_Some (script_load w)).
Proof.
  simpl. destruct (script_load w) as [e|]; simpl; [done|].
  by destruct (script_reply _ _ _ _ _).
Qed.

Lemma run_ipIsAllowed this w ipAddress :
  run w (ipIsAllowed this ipAddress)
  = if allowsGuests this then
      let limits := default [] (opt_plans (opts this) !! "free") in
      match script_load w with
      | None =>
          ([ReqScript ("rl:hit:" +:+ ipAddress) limits (seconds w) 1],
           [script_verdict
              (script_reply w ("rl:hit:" +:+ ipAddress) limits (seconds w) 1)])
      | Some _ => ([], [])
      end
    else ([], [(None, Some true)]).
Proof.
  unfold ipIsAllowed. destruct (allowsGuests this); cbn [negb]; [|done].
  apply run_counter.
Qed.

Lemma throws_ipIsAllowed this w ipAddress :
  throws w (ipIsAllowed this ipAddress)
  = allowsGuests this && bool_decide (is_Some (script_load w)).
Proof.
  unfold ipIsAllowed. destruct (allowsGuests this); cbn [negb andb]; [|done].
  apply throws_counter.
Qed.

Lemma check_token this token ipAddress :
  token ≠ EmptyString →
  check this (Some token) ipAddress = isTokenAllowed this token ipAddress.
Proof.
  intros Ht. unfold check. simpl. rewrite bool_decide_true by done.
  simpl. by rewrite andb_false_r.
Qed.

(** The run of the token path. *)
Lemma run_isTokenAllowed this w token ipAddress :
  let key := namespace this +:+ ":rl:" +:+ token in
  let checkKey := namespace this +:+ ":rl:hit:" +:+ token in
  let guest := ipIsAllowed this ipAddress in
  let counter limits := now (λ ts, lua_overLimitCheck checkKey limits ts 1) in
  run w (isTokenAllowed this token ipAddress)
  = match get_reply w key with
    | Failed e => ([ReqGet key], [(Some e, None)])
    | Got cached =>
        if truthy cached then
          if bool_decide (default EmptyString cached = "none")
          then (ReqGet key :: (run w guest).1, (run w guest).2)
          else match getPlanLimits this (default EmptyString cached) with
               | Some limits =>
                   (ReqGet key :: (run w (counter limits)).1,
                    (run w (counter limits)).2)
               | None =>
                   (ReqGet key :: ReqDel key :: (run w guest).1,
                    (run w guest).2)
               end
        else if planProvider this then
          match provider_reply w token with
          | Failed e => ([ReqGet key; ReqProvider token], [(Some e, None)])
          | Got plan =>
              let rest :=
                if truthy plan then
                  match getPlanLimits this (default EmptyString plan) with
                  | Some limits => counter limits
                  | None => guest
                  end
                else guest in
              (ReqGet key :: ReqProvider token
                 :: (if throws w rest
                     then (if shouldCacheTokens this
                           then [ReqSet key (if truthy plan
                                             then default EmptyString plan
                                             else "none")]
                           else []) ++ (run w rest).1
                     else cache_write this w token plan (run w rest).1),
               (run w rest).2)
          end
        else (ReqGet key :: (run w guest).1, (run w guest).2)
    end.
Proof.
  intros key checkKey guest counter. subst key checkKey guest counter.
  unfold isTokenAllowed. cbn [run].
  destruct (get_reply w _) as [e|cached]; [done|].
  destruct (truthy cached) eqn:Hc.
  - case_bool_decide.
    { by destruct (run w (ipIsAllowed this ipAddress)). }
    destruct (getPlanLimits this _) as [limits|].
    + by destruct (run w (now _)).
    + cbn [run]. by destruct (run w (ipIsAllowed this ipAddress)).
  - destruct (planProvider this); cbn [negb].
    2:{ by destruct (run w (ipIsAllowed this ipAddress)). }
    cbn [run]. destruct (provider_reply w token) as [e|plan]; [done|].
    cbn zeta. unfold cache_write.
    set (rest := if truthy plan
                 then match getPlanLimits this _ with
                      | Some _ => _
                      | None => _
                      end
                 else _).
    destruct (shouldCacheTokens this); cbn [run].
    + destruct (run w rest) as [rs cs]. destruct (throws w rest); [done|].
      destruct (set_reply w _ _); cbn [run fst snd]; by rewrite (app_nil_r cs).
    + destruct (run w rest) as [rs cs]. by destruct (throws w rest).
Qed.


(** C6. Without a [free] plan and without a token, [check] calls back
    at once with no error and [denied = true]; no request is sent. *)
Theorem no_free_plan_no_token this token ipAddress w :
  allowsGuests this = false → truthy token = false →
  check this token ipAddress = Callback None (Some true)
  ∧ run w (check this token ipAddress) = ([], [(None, Some true)]).
Proof. intros Hg Ht. unfold check. rewrite Hg, Ht. done. Qed.

(** C7. A cached plan name that the configuration no longer has: the
    token path reads the cache, deletes the entry and goes on exactly as
    the guest path does.  The caller is called back as the guest path
    calls back; an error can only be the error of the guest script call. *)
Theorem stale_cached_plan this token ipAddress plan w :
  token ≠ EmptyString →
  get_reply w (namespace this +:+ ":rl:" +:+ token) = Got (Some plan) →
  plan ≠ EmptyString → plan ≠ "none" → getPlanLimits this plan = None →
  let key := namespace this +:+ ":rl:" +:+ token in
  let guest := run w (ipIsAllowed this ipAddress) in
  run w (check this (Some token) ipAddress)
  = (ReqGet key :: ReqDel key :: guest.1, guest.2)
  ∧ ∀ e denied, (Some e, denied) ∈ guest.2 →
      script_reply w ("rl:hit:" +:+ ipAddress)
        (default [] (opt_plans (opts this) !! "free")) (seconds w) 1
      = Failed e.
Proof.
  intros Ht Hget Hp Hn Hl key guest. subst key guest. split.
  - rewrite check_token by done. rewrite run_isTokenAllowed, Hget.
    cbn zeta. cbn [truthy]. rewrite bool_decide_true by done.
    change (default EmptyString (Some plan)) with plan.
    rewrite bool_decide_false by done. by rewrite Hl.
  - rewrite run_ipIsAllowed. intros e denied.
    destruct (allowsGuests this); cbn zeta.
    + destruct (script_load w); [by intros ?%not_elem_of_nil|]. simpl.
      intros H%list_elem_of_singleton. unfold script_verdict in H.
      destruct (script_reply _ _ _ _ _); congruence.
    + intros H%list_elem_of_singleton. congruence.
Qed.

(** C8. A failed cache read, or a failed plan lookup, is handed to the
    caller's callback and ends the call: the only requests are the cache
    read and, in the second case, the lookup; no script call, no guest
    path. *)
Theorem lookup_errors_abort this token ipAddress w e :
  token ≠ EmptyString →
  let key := namespace this +:+ ":rl:" +:+ token in
  (get_reply w key = Failed e →
     run w (check this (Some token) ipAddress)
     = ([ReqGet key], [(Some e, None)]))
  ∧ (∀ plan, get_reply w key = Got plan → truthy plan = false →
       planProvider this = true → provider_reply w token = Failed e →
       run w (check this (Some token) ipAddress)
       = ([ReqGet key; ReqProvider token], [(Some e, None)])).
Proof.
  intros Ht key. subst key. rewrite check_token by done.
  rewrite run_isTokenAllowed. split.
  - by intros ->.
  - intros plan -> Hp Hprov Hfail. by rewrite Hp, Hprov, Hfail.
Qed.


(** C10, counterexample.  A plan named ["none"] is configured, the cache
    misses and the lookup answers ["none"]: the call caches ["none"] and
    runs the script on the token counter with the limits of that plan, not
    on the guest counter, so the token is not limited by IP. *)
Lemma provider_none_not_guest :
  getPlanLimits none_instance "none" = Some [Tier 1 1 None]
  ∧ get_reply none_world "ns:rl:T" = Got None
  ∧ provider_reply none_world "T" = Got (Some "none")
  ∧ (run none_world (check none_instance (Some "T") "ip")).1
    = [ReqGet "ns:rl:T"; ReqProvider "T"; ReqSet "ns:rl:T" "none";
       ReqScript "ns:rl:hit:T" [Tier 1 1 None] 1000 1;
       ReqExpire "ns:rl:T" 3600]
  ∧ ¬ limited_by_ip none_instance none_world "ip"
        (check none_instance (Some "T") "ip").
Proof.
  split_and!; [done..|]. unfold limited_by_ip.
  intros H. vm_compute in H.
  do 3 apply Forall_cons in H as [_ H]. apply Forall_cons in H as [[H _] _].
  discriminate H.
Qed.

(** C10, amended.  A cached ["none"] sends the call to the guest path
    whatever the configuration: a plan named ["none"] is never reached
    through the cache.  After a cache miss, a lookup that answers
    ["none"] has ["none"] cached; the call itself goes to the guest path
    when no plan is named ["none"], and runs the script on the token
    counter with the limits of that plan when there is one.  The requests
    after the lookup are given for a script that loads. *)
Theorem sentinel_none this token ipAddress w :
  token ≠ EmptyString →
  let key := namespace this +:+ ":rl:" +:+ token in
  let guest := run w (ipIsAllowed this ipAddress) in
  (get_reply w key = Got (Some "none") →
     run w (check this (Some token) ipAddress) = (ReqGet key :: guest.1, guest.2)
     ∧ limited_by_ip this w ipAddress (check this (Some token) ipAddress))
  ∧ (∀ cached, get_reply w key = Got cached → truthy cached = false →
       planProvider this = true →
       provider_reply w token = Got (Some "none") →
       script_load w = None →
       match getPlanLimits this "none" with
       | None =>
           run w (check this (Some token) ipAddress)
           = ([ReqGet key; ReqProvider token]
                ++ cache_write this w token (Some "none") guest.1,
              guest.2)
       | Some limits =>
           (run w (check this (Some token) ipAddress)).1
           = [ReqGet key; ReqProvider token]
             ++ cache_write this w token (Some "none")
                  [ReqScript (namespace this +:+ ":rl:hit:" +:+ token)
                     limits (seconds w) 1]
       end).
Proof.
  intros Ht key guest. subst key guest.
  assert (limited_by_ip this w ipAddress (ipIsAllowed this ipAddress))
    as Hguest.
  { unfold limited_by_ip. rewrite run_ipIsAllowed.
    destruct (allowsGuests this) eqn:Hg; simpl; [|done].
    destruct (script_load w); simpl; [done|].
    apply Forall_singleton. split; [done|].
    apply bool_decide_eq_true in Hg as [l Hl]. by rewrite Hl. }
  unfold limited_by_ip in *.
  rewrite check_token by done. rewrite run_isTokenAllowed. cbn zeta. split.
  - intros ->. cbn [truthy]. rewrite bool_decide_true by done.
    change (default EmptyString (Some "none")) with "none".
    rewrite bool_decide_true by done. split; [done|]. by constructor.
  - intros cached -> Hc Hprov Hreply Hload. rewrite Hc, Hprov, Hreply.
    cbn [truthy]. rewrite bool_decide_true by done.
    change (default EmptyString (Some "none")) with "none".
    destruct (getPlanLimits this "none") as [limits|] eqn:Hl.
    + rewrite throws_counter, run_counter, Hload.
      by rewrite bool_decide_false by (by intros [? ?]).
    + rewrite throws_ipIsAllowed, Hload.
      rewrite bool_decide_false by (by intros [? ?]).
      by rewrite andb_false_r.
Qed.

End GuardiniProofs.

(** * Concrete runs *)


Lemma multi_tier_call_witness :
  (overLimitCheck "k" two_tiers 100 1 fresh).1 = Return 0
  ∧ aggregate (hash (overLimitCheck "k" two_tiers 100 1 fresh).2)
      (Tier 10 3 (Some 5))
    = remaining (hash fresh) (Tier 10 3 (Some 5)) 100
      + 1 * sharing (Tier 10 3 (Some 5)) two_tiers.
Proof.
  assert ((overLimitCheck "k" two_tiers 100 1 fresh).1 = Return 0) as Hr.
  { vm_compute. reflexivity. }
  split; [exact Hr|].
  destruct (multi_tier_call "k" two_tiers 100 1 fresh) as (_ & Hb & _).
  - discriminate.
  - apply (bool_decide_unpack _). vm_compute. exact I.
  - refine (proj1 (Hb Hr (Tier 10 3 (Some 5)) _)).
    apply (bool_decide_unpack _). vm_compute. exact I.
Defined.

Lemma aggregate_is_sum_of_live_buckets_witness :
  reachable "k" (overLimitCheck "k" two_tiers 100 1 fresh).2
  ∧ aggregate (hash (overLimitCheck "k" two_tiers 100 1 fresh).2)
      (Tier 10 3 (Some 5))
    = bucket_sum (hash (overLimitCheck "k" two_tiers 100 1 fresh).2)
        (Tier 10 3 (Some 5)).
Proof.
  assert (reachable "k" (overLimitCheck "k" two_tiers 100 1 fresh).2) as Hr.
  { apply reach_call; [apply reach_fresh|exact I]. }
  split; [exact Hr|].
  exact (proj1 (aggregate_is_sum_of_live_buckets "k"
                  (overLimitCheck "k" two_tiers 100 1 fresh).2
                  (Tier 10 3 (Some 5)) Hr)).
Defined.

Lemma clock_regression_denies_witness :
  hash (overLimitCheck "k" free_1_2 200 1 fresh).2 !! ts_key (Tier 1 2 None)
  = Some 200
  ∧ (overLimitCheck "k" ([Tier 10 3 (Some 5)] ++ Tier 1 2 None :: []) 100 1
       (overLimitCheck "k" free_1_2 200 1 fresh).2).1 = Return 1.
Proof.
  assert (hash (overLimitCheck "k" free_1_2 200 1 fresh).2
            !! ts_key (Tier 1 2 None) = Some 200) as Hts.
  { vm_compute. reflexivity. }
  split; [exact Hts|].
  destruct (clock_regression_denies "k" [Tier 10 3 (Some 5)] (Tier 1 2 None) []
              100 1 (overLimitCheck "k" free_1_2 200 1 fresh).2 200 Hts)
    as [E _].
  - reflexivity.
  - rewrite E. reflexivity.
Defined.

(** A window that has passed: after [duration] seconds the bucket is
    evicted and the call is allowed again. *)
Example allowed_again_after_duration :
  (calls_at "k" free_1_2 1 [100; 100; 100; 101] fresh).1
  = [Return 0; Return 0; Return 1; Return 0].
Proof. vm_compute. reflexivity. Qed.

(** The empty tier list through the class: the caller gets the error of
    the script call, with [denied = false]. *)
Example empty_free_plan_surfaces_error :
  (Guardini.exec (λ _, Guardini.Got None) 1000000
     (Guardini.check
        (Guardini.NewGuardini
           (Guardini.Options None None {[ "free" := [] ]}) false)
        None "192.168.1.1")
     Guardini.empty_store).2
  = [(Some "ERR Error running script", Some false)].
Proof. vm_compute. reflexivity. Qed.

Module GuardiniWitnesses.
Import Guardini GuardiniProofs.

Lemma no_free_plan_no_token_witness :
  allowsGuests GNoFree = false
  ∧ run down_world (check GNoFree None "192.168.1.1")
    = ([], [(None, Some true)]).
Proof.
  split; [reflexivity|].
  apply (no_free_plan_no_token GNoFree None "192.168.1.1" down_world);
    reflexivity.
Defined.

Lemma stale_cached_plan_witness :
  getPlanLimits GFree "gold" = None
  ∧ run gold_world (check GFree (Some "T") "10.0.0.1")
    = (ReqGet ":rl:T" :: ReqDel ":rl:T"
         :: (run gold_world (ipIsAllowed GFree "10.0.0.1")).1,
       (run gold_world (ipIsAllowed GFree "10.0.0.1")).2).
Proof.
  split; [reflexivity|].
  apply (stale_cached_plan GFree "T" "10.0.0.1" "gold" gold_world);
    [discriminate|reflexivity|discriminate|discriminate|reflexivity].
Defined.

Lemma lookup_errors_abort_witness :
  run down_world (check GWhatever (Some "T") "10.0.0.1")
  = ([ReqGet ":rl:T"], [(Some "ECONNREFUSED", None)])
  ∧ run lookup_down_world (check GWhatever (Some "T") "10.0.0.1")
    = ([ReqGet ":rl:T"; ReqProvider "T"], [(Some "lookup failed", None)]).
Proof.
  split.
  - apply (lookup_errors_abort GWhatever "T" "10.0.0.1" down_world
             "ECONNREFUSED"); [discriminate|reflexivity].
  - apply (lookup_errors_abort GWhatever "T" "10.0.0.1" lookup_down_world
             "lookup failed" ltac:(discriminate) ) with (plan := None);
      reflexivity.
Defined.


Lemma sentinel_none_witness :
  (run none_world (check none_instance (Some "T") "ip")).1
  = [ReqGet "ns:rl:T"; ReqProvider "T"]
    ++ cache_write none_instance none_world "T" (Some "none")
         [ReqScript "ns:rl:hit:T" [Tier 1 1 None] 1000 1].
Proof.
  destruct (sentinel_none none_instance "T" "ip" none_world) as [_ H].
  - discriminate.
  - apply (H None); reflexivity.
Defined.

(** The four tests of [test/test.ts], run against a store that executes
    the script. *)
Example test_no_free_plan :
  (exec (λ _, Got None) 1000000 (check GNoFree None "192.168.1.1")
     empty_store).2 = [(None, Some true)].
Proof. vm_compute. reflexivity. Qed.

Example test_provider_without_plan :
  (exec (λ _, Got None) 1000000 (check GNoPlan (Some "token123") "192.168.1.1")
     empty_store).2 = [(None, Some true)].
Proof. vm_compute. reflexivity. Qed.

Example test_abide_plan_limits :
  let provider := λ _, Got (Some "whatever") in
  let call := check GWhatever (Some "token1234") "192.168.1.1" in
  let '(st1, cb1) := exec provider 1000000 call empty_store in
  let '(st2, cb2) := exec provider 1000000 call st1 in
  (cb1, cb2) = ([(None, Some false)], [(None, Some true)]).
Proof. vm_compute. reflexivity. Qed.

Example test_free_plan :
  let call := check GFree None "192.168.1.1" in
  let '(st1, cb1) := exec (λ _, Got None) 1000000 call empty_store in
  let '(st2, cb2) := exec (λ _, Got None) 1000000 call st1 in
  let '(st3, cb3) := exec (λ _, Got None) 1000000 call st2 in
  (cb1, cb2, cb3)
  = ([(None, Some false)], [(None, Some false)], [(None, Some true)]).
Proof. vm_compute. reflexivity. Qed.

End GuardiniWitnesses.

(** * Further properties of the script *)

(** X1. The field names of the record identify what they hold: two tiers
    have the same aggregate field, or the same timestamp field, exactly
    when duration and precision agree; two bucket fields are the same
    exactly when duration, precision and block agree; and an aggregate, a
    timestamp and a bucket field never have the same name. *)
Theorem field_names_injective t t' b b' :
  (count_key t = count_key t'
   ↔ duration t = duration t' ∧ precision t = precision t')
  ∧ (bucket_key t b = bucket_key t' b'
     ↔ duration t = duration t' ∧ precision t = precision t' ∧ b = b')
  ∧ (ts_key t = ts_key t'
     ↔ duration t = duration t' ∧ precision t = precision t')
  ∧ ts_key t ≠ count_key t' ∧ bucket_key t b ≠ count_key t'
  ∧ bucket_key t b ≠ ts_key t'.
Proof.
  split_and!.
  - split; [apply count_key_inj|]. intros [? ?]. by apply count_key_eq.
  - rewrite bucket_key_eq_iff. split.
    + intros [[? ?]%count_key_inj ?]. done.
    + intros (? & ? & ?). split; [by apply count_key_eq|done].
  - unfold ts_key. rewrite field_eq_iff. split.
    + intros [[? ?]%count_key_inj _]. done.
    + intros [? ?]. split; [by apply count_key_eq|done].
  - apply ts_key_ne_count_key.
  - apply bucket_key_ne_count_key.
  - apply bucket_key_ne_ts_key.
Qed.

(** X2. For a tier with positive duration and positive precision entry,
    the precision used is positive and at most the duration, there is at
    least one block, and the blocks together cover the duration with less
    than one block to spare. *)
Theorem blocks_cover_duration t :
  tier_ok t →
  0 < precision t ≤ duration t
  ∧ 1 ≤ blocks t
  ∧ duration t ≤ blocks t * precision t < duration t + precision t.
Proof.
  intros Hok. pose proof (precision_pos t Hok) as Hp.
  pose proof (blocks_pos t Hok) as Hb.
  assert (precision t ≤ duration t) by (unfold precision; lia).
  split_and!; [lia..| |].
  - unfold blocks, ceil_div in *.
    pose proof (Z.mul_div_le (- duration t) (precision t) Hp). nia.
  - unfold blocks, ceil_div in *.
    pose proof (Z.mul_succ_div_gt (- duration t) (precision t) Hp). nia.
Qed.

Lemma tier_ok_same_key t t' :
  count_key t = count_key t' → tier_ok t → tier_ok t'.
Proof.
  intros [Hd Hp]%count_key_inj Hok. pose proof (precision_pos t Hok) as Hpos.
  destruct Hok as [Hdur _]. split; [lia|].
  intros p' Hl. rewrite Hp in Hpos. unfold precision in Hpos.
  rewrite Hl in Hpos. simpl in Hpos. lia.
Qed.

Lemma sharing_none t l :
  Forall (λ t', count_key t' ≠ count_key t) l → sharing t l = 0.
Proof.
  induction 1 as [|t' l Hne _ IH]; [done|].
  rewrite sharing_cons, decide_False by done. lia.
Qed.

Lemma sharing_NoDup t l :
  NoDup (count_key <$> l) → t ∈ l → sharing t l = 1.
Proof.
  induction l as [|t' l IH]; intros Hnd Ht; [by apply not_elem_of_nil in Ht|].
  rewrite fmap_cons in Hnd. apply NoDup_cons in Hnd as [Hn Hnd].
  rewrite sharing_cons. apply elem_of_cons in Ht as [->|Ht].
  - rewrite decide_True by done.
    assert (sharing t' l = 0); [|lia].
    apply sharing_none, Forall_forall. intros t'' Hin K. apply Hn.
    rewrite <-K. by apply list_elem_of_fmap_2.
  - rewrite decide_False; [rewrite IH by done; lia|].
    intros K. apply Hn. rewrite K. by apply list_elem_of_fmap_2.
Qed.

(** X3. After an allowed call, the aggregate of every tier of the call is
    within the threshold of the tier, provided no two entries of the list
    share their fields. *)
Theorem allowed_call_within_threshold key limits now weight s t :
  NoDup (count_key <$> limits) → t ∈ limits →
  (overLimitCheck key limits now weight s).1 = Return 0 →
  aggregate (hash (overLimitCheck key limits now weight s).2) t ≤ threshold t.
Proof.
  intros Hnd Ht Hr.
  assert (limits ≠ []) as Hne by (intros ->; by apply not_elem_of_nil in Ht).
  rewrite overLimitCheck_reply in Hr by done. case_decide as HE; [done|].
  apply not_Exists_Forall in HE; [|apply _].
  destruct (overLimitCheck_pass key limits now weight s Hne HE) as (e & cs & ->).
  simpl. rewrite aggregate_bump_all, aggregate_evict_all_in by done.
  rewrite sharing_NoDup by done.
  eapply Forall_forall in HE; [|exact Ht].
  assert (¬ remaining (hash s) t now + weight > threshold t)
    by (intros ?; apply HE; unfold violates; by right).
  lia.
Qed.

Lemma remaining_nonneg h t now :
  consistent h → buckets_nonneg h → 0 ≤ remaining h t now.
Proof.
  intros Hc Hn.
  pose proof (remaining_ge_held h t now [] Hc Hn (NoDup_nil_2)) as H.
  simpl in H. apply H. intros b ?%not_elem_of_nil. done.
Qed.

(** X4. A tier with threshold zero or below denies every call of positive
    weight, on every record that calls with non-negative weights can have
    left. *)
Theorem non_positive_threshold_denies key limits now weight s t :
  reachable_with (λ w, 0 ≤ w) key s →
  t ∈ limits → threshold t ≤ 0 → 0 < weight →
  (overLimitCheck key limits now weight s).1 = Return 1.
Proof.
  intros Hs Ht Hth Hw.
  assert (limits ≠ []) as Hne by (intros ->; by apply not_elem_of_nil in Ht).
  rewrite overLimitCheck_reply by done. rewrite decide_True; [done|].
  apply Exists_exists. exists t. split; [done|]. right.
  pose proof (remaining_nonneg (hash s) t now
                (reachable_consistent _ _ _ Hs) (reachable_nonneg _ _ Hs)).
  lia.
Qed.

Lemma block_id_mono t now now' :
  tier_ok t → now ≤ now' → block_id t now ≤ block_id t now'.
Proof.
  intros Hok%precision_pos ?. unfold block_id. by apply Z.div_le_mono.
Qed.

Lemma trim_before_mono t now now' :
  tier_ok t → now ≤ now' → trim_before t now ≤ trim_before t now'.
Proof.
  intros Hok Hle. pose proof (block_id_mono t now now' Hok Hle).
  unfold trim_before. lia.
Qed.

Lemma held_absent h t bs :
  (∀ b, b ∈ bs → h !! bucket_key t b = None) → held h t bs = 0.
Proof. apply sum_absent. Qed.

Lemma held_evict_keep h t now bs :
  (∀ b, b ∈ bs → b ∉ stale h t now) →
  held (evict h t now) t bs = held h t bs.
Proof.
  induction bs as [|b bs IH]; intros Hb; [done|]. simpl.
  rewrite IH by (intros b' ?; apply Hb; by right).
  rewrite bucket_evict_keep; [done|]. apply Hb. by left.
Qed.

Lemma stale_evict_gen h t t' now now' :
  stale (evict h t now) t' now' = stale h t' now'.
Proof. unfold stale, old_ts. by rewrite lookup_evict_ts. Qed.

(** The stale range of a later time extends the stale range of now. *)
Lemma stale_later h t now now' :
  trim_before t now ≤ trim_before t now' →
  ∃ more, stale h t now' = stale h t now ++ more
          ∧ ∀ b, b ∈ more → b ∉ stale h t now.
Proof.
  intros Hle. unfold stale, old_ts.
  destruct (h !! ts_key t) as [o|]; simpl.
  - set (len := Z.min (trim_before t now) (o + blocks t) - o).
    set (len' := Z.min (trim_before t now') (o + blocks t) - o).
    assert (len ≤ len') by (unfold len, len'; lia).
    destruct (decide (len ≤ 0)) as [Hn|Hp].
    + exists (seqZ o len'). rewrite (seqZ_nil o len) by done.
      split; [done|]. intros b _. apply not_elem_of_nil.
    + exists (seqZ (o + len) (len' - len)).
      split.
      * rewrite <-seqZ_app by lia. f_equal. lia.
      * intros b Hb%elem_of_seqZ Hb'%elem_of_seqZ. lia.
  - exists []. rewrite !seqZ_nil by lia. split; [done|].
    intros b ?%not_elem_of_nil. done.
Qed.

Lemma remaining_evict_later h t t' now now' :
  trim_before t' now ≤ trim_before t' now' →
  remaining (evict h t now) t' now' = remaining h t' now'.
Proof.
  intros Hle. destruct (decide (count_key t' = count_key t)) as [K|K].
  - rewrite <-(same_key_evict _ _ h now K).
    destruct (stale_later h t' now now' Hle) as (more & E & Hmore).
    unfold remaining. rewrite aggregate_evict, decide_True by done.
    unfold stale_count at 2 3. rewrite stale_evict_gen, E.
    change (foldr (λ b acc, bucket ?h t' b + acc) 0 ?l) with (held h t' l).
    rewrite !held_app.
    rewrite (held_absent (evict h t' now) t' (stale h t' now)).
    2:{ intros b Hb. rewrite lookup_evict_bucket. by rewrite decide_True. }
    rewrite held_evict_keep by done.
    change (stale_count h t' now) with (held h t' (stale h t' now)). lia.
  - apply same_fields_remaining. by apply evict_other.
Qed.

Lemma violates_evict_all_later h l t' now now' w :
  trim_before t' now ≤ trim_before t' now' →
  violates (evict_all h l now) t' now' w ↔ violates h t' now' w.
Proof.
  intros Hle. revert h. induction l as [|t l IH]; intros h; [done|].
  simpl. rewrite IH. unfold violates, regressed, old_ts.
  by rewrite lookup_evict_ts, remaining_evict_later.
Qed.

(** X5. A denied call does not count: a call at the same or a later time
    gets the same reply after the denied call as without it, whatever
    tiers and weight either call has. *)
Theorem denied_call_leaves_no_trace key limits now weight s limits' now' weight' :
  (overLimitCheck key limits now weight s).1 = Return 1 →
  now ≤ now' → Forall tier_ok limits' →
  (overLimitCheck key limits' now' weight'
     (overLimitCheck key limits now weight s).2).1
  = (overLimitCheck key limits' now' weight' s).1.
Proof.
  intros Hr Hle Hok.
  destruct (overLimitCheck_denied_hash key limits now weight s Hr) as (l & Hh).
  destruct (decide (limits' = [])) as [->|Hne]; [done|].
  rewrite !overLimitCheck_reply by done. rewrite Hh.
  assert (Exists (λ t, violates (evict_all (hash s) l now) t now' weight') limits'
          ↔ Exists (λ t, violates (hash s) t now' weight') limits') as Hiff.
  { rewrite !Exists_exists. split; intros (t & Ht & Hv); exists t;
      (split; [done|]);
      (eapply violates_evict_all_later; [|exact Hv]);
      apply trim_before_mono; [|done| |done];
      by eapply Forall_forall in Hok. }
  repeat case_decide; tauto.
Qed.

Lemma tidy_empty T : tidy ∅ T.
Proof.
  intros t _. split.
  - intros ts. by rewrite lookup_empty.
  - intros f [? Hf]. by rewrite lookup_empty in Hf.
Qed.

Lemma tidy_mono h T T' : tidy h T → T ≤ T' → tidy h T'.
Proof.
  intros H Hle t Hok. destruct (H t Hok) as [Hts Hb]. split.
  - intros ts Hs. pose proof (Hts ts Hs).
    pose proof (trim_before_mono t T T' Hok Hle). lia.
  - intros f Hf Hbo. destruct (Hb f Hf Hbo) as (b & ts & ? & ? & [? ?] & ?).
    exists b, ts. split_and!; [done..|].
    pose proof (block_id_mono t T T' Hok Hle). lia.
Qed.

Lemma evict_present_bucket h t t' now f :
  bucket_of t' f = true → is_Some (evict h t now !! f) → is_Some (h !! f).
Proof.
  intros Hb Hf. destruct (decide (f ∈ stale_fields h t now)) as [Hs|Hs].
  - rewrite lookup_evict_stale in Hf by done. by destruct Hf.
  - rewrite lookup_evict_keep in Hf; [done| |done].
    by apply (bucket_of_ne_count_key t').
Qed.

Lemma tidy_evict h t now T : tidy h T → tidy (evict h t now) T.
Proof.
  intros H t' Hok. destruct (H t' Hok) as [Hts Hb]. split.
  - intros ts. rewrite lookup_evict_ts. apply Hts.
  - intros f Hf Hbo.
    destruct (Hb f (evict_present_bucket _ _ _ _ _ Hbo Hf) Hbo)
      as (b & ts & ? & ? & ?).
    exists b, ts. by rewrite lookup_evict_ts.
Qed.

Lemma tidy_evict_all h l now T : tidy h T → tidy (evict_all h l now) T.
Proof.
  revert h. induction l as [|t l IH]; intros h H; [done|].
  simpl. by apply IH, tidy_evict.
Qed.

Lemma trimmed_evict_self h t now T :
  tidy h T → tier_ok t → trimmed (evict h t now) t now.
Proof.
  intros H Hok b Hb. rewrite lookup_evict_bucket in Hb.
  case_decide as Hd; [by destruct Hb|].
  destruct (H t Hok) as [_ Hbk].
  destruct (Hbk (bucket_key t b) Hb) as (b' & ts & Hk & Hts & Hrange & _).
  { rewrite bucket_of_bucket_key. by apply bool_decide_eq_true. }
  apply bucket_key_eq_iff in Hk as [_ <-].
  assert (b ∉ stale h t now) as Hns by tauto.
  unfold stale, old_ts in Hns. rewrite Hts in Hns. simpl in Hns.
  rewrite elem_of_seqZ in Hns. lia.
Qed.

Lemma trimmed_evict h t t' now now' :
  trimmed h t now → trimmed (evict h t' now') t now.
Proof.
  intros H b Hb. apply H. rewrite lookup_evict_bucket in Hb.
  case_decide; [by destruct Hb|done].
Qed.

Lemma trimmed_evict_all_keep h l t now now' :
  trimmed h t now → trimmed (evict_all h l now') t now.
Proof.
  revert h. induction l as [|t' l IH]; intros h H; [done|].
  simpl. by apply IH, trimmed_evict.
Qed.

Lemma trimmed_evict_all h l t now T :
  tidy h T → tier_ok t → t ∈ l → trimmed (evict_all h l now) t now.
Proof.
  revert h. induction l as [|t' l IH]; intros h H Hok Ht.
  { by apply not_elem_of_nil in Ht. }
  simpl. apply elem_of_cons in Ht as [<-|Ht].
  - eapply trimmed_evict_all_keep, trimmed_evict_self; done.
  - apply IH; [by apply tidy_evict|done..].
Qed.

Lemma bump_present h t now w f :
  is_Some (bump h t now w !! f) →
  f = bucket_key t (block_id t now) ∨ f = count_key t ∨ f = ts_key t
  ∨ is_Some (h !! f).
Proof.
  rewrite bump_eq. intros [v Hf].
  apply lookup_insert_Some in Hf as [[<- _]|[_ Hf]]; [by left|].
  apply lookup_insert_Some in Hf as [[<- _]|[_ Hf]]; [by right; left|].
  apply lookup_insert_Some in Hf as [[<- _]|[_ Hf]]; [by right; right; left|].
  right; right; right. by exists v.
Qed.

Lemma tidy_bump h t' now w :
  tidy h now → (tier_ok t' → trimmed h t' now) → tidy (bump h t' now w) now.
Proof.
  intros H Htr t Hok. destruct (H t Hok) as [Hts Hb].
  pose proof (blocks_pos t Hok) as Hblocks. split.
  - intros ts. rewrite lookup_bump_ts. case_decide as K; [|apply Hts].
    intros [= <-]. rewrite (same_key_trim_before _ _ now K). lia.
  - intros f Hf Hbo. rewrite lookup_bump_ts.
    destruct (bump_present _ _ _ _ _ Hf) as [->|[->|[->|Hh]]].
    + rewrite bucket_of_bucket_key in Hbo. apply bool_decide_eq_true in Hbo.
      rewrite decide_True by done.
      exists (block_id t now), (trim_before t' now).
      rewrite <-(same_key_trim_before _ _ now Hbo).
      rewrite <-(same_key_block_id _ _ now Hbo).
      split_and!; try done; [by apply bucket_key_eq_iff|..];
        unfold trim_before; lia.
    + by rewrite bucket_of_count_key in Hbo.
    + by rewrite bucket_of_ts_key in Hbo.
    + destruct (Hb f Hh Hbo) as (b & ts & -> & Hs & Hrange & Hle).
      case_decide as K.
      * assert (trim_before t now ≤ b).
        { rewrite (same_key_trim_before _ _ now K).
          apply Htr; [by apply (tier_ok_same_key t)|].
          by rewrite <-(same_key_bucket_key _ _ K). }
        exists b, (trim_before t' now).
        rewrite <-(same_key_trim_before _ _ now K).
        split_and!; try done; unfold trim_before in *; lia.
      * by exists b, ts.
Qed.

Lemma trimmed_bump h t t' now w :
  tier_ok t → trimmed h t now → trimmed (bump h t' now w) t now.
Proof.
  intros Hok H b Hb. pose proof (blocks_pos t Hok).
  destruct (bump_present _ _ _ _ _ Hb) as [Hk|[Hk|[Hk|Hh]]].
  - apply bucket_key_eq_iff in Hk as [K ->].
    rewrite <-(same_key_block_id _ _ now K). unfold trim_before. lia.
  - by apply bucket_key_ne_count_key in Hk.
  - by apply bucket_key_ne_ts_key in Hk.
  - by apply H.
Qed.

Lemma tidy_bump_all h l now w :
  tidy h now → (∀ t, t ∈ l → tier_ok t → trimmed h t now) →
  tidy (bump_all h l now w) now.
Proof.
  revert h. induction l as [|t' l IH]; intros h H Htr; [done|].
  simpl. apply IH.
  - apply tidy_bump; [done|]. intros ?. apply Htr; [by left|done].
  - intros t Ht Hok. apply trimmed_bump; [done|]. apply Htr; [by right|done].
Qed.

Lemma reachable_until_tidy key T s : reachable_until key T s → tidy (hash s) T.
Proof.
  induction 1 as [T|T s l now w _ IH Hle|T s _ _].
  - apply tidy_empty.
  - destruct (overLimitCheck_hash key l now w s) as (l1 & l2 & -> & [->|[-> ->]]).
    + simpl. apply tidy_evict_all. by apply (tidy_mono _ T).
    + apply tidy_bump_all.
      * apply tidy_evict_all. by apply (tidy_mono _ T).
      * intros t Ht Hok. by apply (trimmed_evict_all _ _ _ _ T).
  - apply tidy_empty.
Qed.

Lemma reachable_until_reachable key T s :
  reachable_until key T s → reachable key s.
Proof.
  induction 1; [apply reach_fresh|by apply reach_call|by apply reach_expired].
Qed.

Lemma bucket_sum_none h t :
  (∀ f, is_Some (h !! f) → bucket_of t f = false) → bucket_sum h t = 0.
Proof.
  unfold bucket_sum.
  apply (map_fold_weak_ind
           (λ r m, (∀ f, is_Some (m !! f) → bucket_of t f = false) → r = 0));
    [done|].
  intros f v m r Hf IH H.
  rewrite (H f) by (rewrite lookup_insert_eq; by eexists).
  apply IH. intros f' [v' Hf']. apply H.
  rewrite lookup_insert_ne by congruence. by eexists.
Qed.

(** When every live bucket of a tier is among the blocks [bs], the sum
    of the live buckets is what those blocks hold. *)
Lemma bucket_sum_held h t bs :
  NoDup bs →
  (∀ f, is_Some (h !! f) → bucket_of t f = true →
     ∃ b, f = bucket_key t b ∧ b ∈ bs) →
  bucket_sum h t = held h t bs.
Proof.
  intros Hbs. revert h. induction Hbs as [|b bs Hb _ IH]; intros h H.
  - simpl. apply bucket_sum_none. intros f Hf.
    destruct (bucket_of t f) eqn:Hbo; [|done].
    destruct (H f Hf Hbo) as (b & _ & ?%not_elem_of_nil). done.
  - simpl. rewrite <-(held_delete h t b bs) by done.
    rewrite <-(IH (delete (bucket_key t b) h)).
    + rewrite bucket_sum_delete. unfold share.
      rewrite bucket_of_bucket_key, bool_decide_true by done.
      fold (bucket h t b). lia.
    + intros f [v [Hne Hf]%lookup_delete_Some] Hbo.
      destruct (H f (ex_intro _ v Hf) Hbo) as (b' & -> & Hin).
      exists b'. split; [done|].
      apply elem_of_cons in Hin as [->|?]; [done|done].
Qed.

Lemma elapsed_blocks t T now :
  tier_ok t → T + blocks t * precision t ≤ now →
  T ≤ now ∧ block_id t T < trim_before t now.
Proof.
  intros Hok Hle. pose proof (precision_pos t Hok) as Hp.
  pose proof (blocks_pos t Hok) as Hb. split; [nia|].
  assert (block_id t T + blocks t ≤ block_id t now); [|unfold trim_before; lia].
  unfold block_id. rewrite <-Z.div_add by lia. by apply Z.div_le_mono.
Qed.

Lemma elapsed_remaining h t T now :
  tidy h T → consistent h → tier_ok t →
  block_id t T < trim_before t now → remaining h t now = 0.
Proof.
  intros Ht Hc Hok Hlt. unfold remaining. rewrite Hc.
  change (stale_count h t now) with (held h t (stale h t now)).
  rewrite (bucket_sum_held h t (stale h t now)); [lia|apply NoDup_seqZ|].
  intros f Hf Hbo. destruct (Ht t Hok) as [_ Hb].
  destruct (Hb f Hf Hbo) as (b & ts & -> & Hts & Hrange & Hle).
  exists b. split; [done|]. unfold stale, old_ts. rewrite Hts. simpl.
  apply elem_of_seqZ. lia.
Qed.

Lemma block_id_le t now : tier_ok t → 0 ≤ now → block_id t now ≤ now.
Proof.
  intros Hp%precision_pos ?. unfold block_id.
  apply Z.div_le_upper_bound; [done|]. nia.
Qed.

Lemma elapsed_not_regressed h t T now :
  tidy h T → tier_ok t → T ≤ now → 0 ≤ now → ¬ regressed h t now.
Proof.
  intros Ht Hok Hle Hnow. destruct (Ht t Hok) as [Hts _].
  pose proof (trim_before_mono t T now Hok Hle).
  pose proof (trim_before_le t now Hok).
  pose proof (block_id_le t now Hok Hnow).
  unfold regressed, old_ts. destruct (h !! ts_key t) as [ts|]; simpl.
  - specialize (Hts ts eq_refl). lia.
  - lia.
Qed.

(** X6. Once the whole window of every tier has passed since the last
    call (calls having come in time order), nothing of the earlier usage
    is left: the call is allowed exactly when its weight alone fits every
    threshold. *)
Theorem quota_restored_after_window key limits now weight T s :
  reachable_until key T s →
  limits ≠ [] → Forall tier_ok limits → 0 ≤ now →
  (∀ t, t ∈ limits → T + blocks t * precision t ≤ now) →
  (overLimitCheck key limits now weight s).1 = Return 0
  ↔ Forall (λ t, weight ≤ threshold t) limits.
Proof.
  intros Hs Hne Hok Hnow Hel.
  pose proof (reachable_until_tidy _ _ _ Hs) as Ht.
  pose proof (reachable_consistent _ _ _ (reachable_until_reachable _ _ _ Hs))
    as Hc.
  assert (∀ t, t ∈ limits →
            (violates (hash s) t now weight ↔ ¬ weight ≤ threshold t)) as Hv.
  { intros t Hin. assert (tier_ok t) as Hokt by (by eapply Forall_forall in Hok).
    destruct (elapsed_blocks t T now Hokt (Hel t Hin)) as [Hle Hlt].
    pose proof (elapsed_remaining _ _ _ _ Ht Hc Hokt Hlt) as Hrem.
    pose proof (elapsed_not_regressed _ _ _ _ Ht Hokt Hle Hnow) as Hreg.
    unfold violates. rewrite Hrem. split; [intros [?|?]; [done|lia]|].
    intros ?. right. lia. }
  rewrite overLimitCheck_reply by done. rewrite Forall_forall.
  case_decide as HE.
  - split; [done|]. intros Hall. exfalso.
    apply Exists_exists in HE as (t & Hin & Hvt).
    apply (Hv t Hin) in Hvt. by apply Hvt, Hall.
  - split; [|done]. intros _ t Hin.
    destruct (decide (weight ≤ threshold t)) as [?|Hgt]; [done|].
    exfalso. apply HE, Exists_exists. exists t. split; [done|].
    by apply (Hv t Hin).
Qed.

Lemma stale_fields_empty t now : stale_fields ∅ t now = [].
Proof.
  destruct (stale_fields ∅ t now) as [|f fs] eqn:E; [done|].
  assert (f ∈ stale_fields ∅ t now) as Hf by (rewrite E; by left).
  apply elem_of_stale_fields in Hf as (b & _ & _ & [v Hv]).
  by rewrite lookup_empty in Hv.
Qed.

Lemma evict_all_empty l now : evict_all ∅ l now = ∅.
Proof.
  induction l as [|t l IH]; [done|]. simpl.
  assert (evict ∅ t now = ∅) as ->; [|done].
  unfold evict. by rewrite stale_fields_empty.
Qed.

Lemma remaining_empty t now : remaining ∅ t now = 0.
Proof.
  unfold remaining. rewrite stale_count_none by apply stale_fields_empty.
  unfold aggregate. by rewrite lookup_empty.
Qed.

(** X7. A call on a key without a record: it is allowed exactly when the
    weight fits every threshold; denied, it leaves the record empty;
    allowed, it sets for every tier the aggregate and the current bucket
    to the weight, once per list entry that shares the tier's fields, and
    the timestamp to the trim point. *)
Theorem first_call_on_missing_key key limits now weight s :
  hash s = ∅ → limits ≠ [] → Forall tier_ok limits → 0 ≤ now →
  let r := (overLimitCheck key limits now weight s).1 in
  let s' := (overLimitCheck key limits now weight s).2 in
  (r = Return 0 ↔ Forall (λ t, weight ≤ threshold t) limits)
  ∧ (r = Return 1 → hash s' = ∅)
  ∧ (r = Return 0 → ∀ t, t ∈ limits →
       aggregate (hash s') t = weight * sharing t limits
       ∧ bucket (hash s') t (block_id t now) = weight * sharing t limits
       ∧ hash s' !! ts_key t = Some (trim_before t now)).
Proof.
  intros Hh Hne Hok Hnow r s'. subst r s'.
  assert (∀ t, t ∈ limits →
            (violates (hash s) t now weight ↔ ¬ weight ≤ threshold t)) as Hv.
  { intros t Hin. assert (tier_ok t) as Hokt by (by eapply Forall_forall in Hok).
    pose proof (trim_before_le t now Hokt).
    pose proof (block_id_le t now Hokt Hnow).
    unfold violates, regressed, old_ts.
    rewrite Hh, remaining_empty, lookup_empty. simpl.
    split; [intros [?|?]; lia|]. intros ?. right. lia. }
  split_and!.
  - rewrite overLimitCheck_reply by done. rewrite Forall_forall.
    case_decide as HE.
    + split; [done|]. intros Hall. exfalso.
      apply Exists_exists in HE as (t & Hin & Hvt).
      apply (Hv t Hin) in Hvt. by apply Hvt, Hall.
    + split; [|done]. intros _ t Hin.
      destruct (decide (weight ≤ threshold t)) as [?|Hgt]; [done|].
      exfalso. apply HE, Exists_exists. exists t. split; [done|].
      by apply (Hv t Hin).
  - intros Hr.
    destruct (overLimitCheck_denied_hash key limits now weight s Hr) as (l & ->).
    rewrite Hh. apply evict_all_empty.
  - rewrite overLimitCheck_reply by done. case_decide as HE; [done|].
    intros _ t Hin. apply not_Exists_Forall in HE; [|apply _].
    destruct (overLimitCheck_pass key limits now weight s Hne HE)
      as (e & cs & ->). simpl.
    rewrite Hh, evict_all_empty.
    rewrite aggregate_bump_all, bucket_bump_all, decide_True by done.
    rewrite lookup_bump_all_ts by done.
    unfold aggregate, bucket. rewrite !lookup_empty. simpl.
    split_and!; [lia|lia|done].
Qed.














Lemma longest_max first l :
  (∀ t, t ∈ l → duration t ≤ longest first l)
  ∧ duration first ≤ longest first l
  ∧ (longest first l = duration first ∨ ∃ t, t ∈ l ∧ longest first l = duration t).
Proof.
  unfold longest. generalize (duration first) as d.
  induction l as [|t l IH]; intros d.
  - split_and!; [by intros ? ?%not_elem_of_nil|done|by left].
  - rewrite fmap_cons. cbn [foldl].
    destruct (IH (d `max` duration t)) as (Hall & Hd & Hex). split_and!.
    + intros t' [->|Hin]%elem_of_cons; [lia|by apply Hall].
    + lia.
    + destruct Hex as [E|(t' & Hin & E)].
      * destruct (decide (d ≤ duration t)).
        -- right. exists t. split; [by left|]. lia.
        -- left. lia.
      * right. exists t'. split; [by right|done].
Qed.

(** X9. An allowed call ends with [EXPIRE key longest_duration], where
    [longest_duration] is the largest duration among the tiers of the
    call, and the key then has that time to live. *)
Theorem allowed_call_sets_expiry key limits now weight s :
  Forall tier_ok limits →
  (overLimitCheck key limits now weight s).1 = Return 0 →
  ∃ longest_duration,
    expiry (overLimitCheck key limits now weight s).2 = Some longest_duration
    ∧ (∀ t, t ∈ limits → duration t ≤ longest_duration)
    ∧ (∃ t, t ∈ limits ∧ duration t = longest_duration)
    ∧ last (calls (overLimitCheck key limits now weight s).2)
      = Some (EXPIRE key longest_duration).
Proof.
  intros Hok Hr. destruct limits as [|first rest] eqn:El; [done|].
  rewrite <-El in *. assert (limits ≠ []) as Hne by (by rewrite El).
  rewrite overLimitCheck_reply in Hr by done. case_decide as HE; [done|].
  apply not_Exists_Forall in HE; [|apply _].
  exists (longest first limits).
  destruct (longest_max first limits) as (Hall & Hd & Hex).
  assert (0 < longest first limits) as Hpos.
  { rewrite El in Hok. apply Forall_cons in Hok as [[? _] _]. lia. }
  assert (first ∈ limits) as Hfirst by (rewrite El; by left).
  assert (∃ cs,
            overLimitCheck key limits now weight s
            = (Return 0,
               Redis (bump_all (evict_all (hash s) limits now) limits now weight)
                 (Some (longest first limits))
                 (calls s ++ cs ++ [EXPIRE key (longest first limits)])))
    as (cs & ->).
  { rewrite (overLimitCheck_unfold key limits first) by (by rewrite El).
    destruct (check_limits_pass key now weight limits (duration first) [] s HE)
      as (e & cs & ->).
    unfold mbind, script_bind. rewrite app_nil_l.
    destruct (update_counts_spec key now weight limits
                (Redis (evict_all (hash s) limits now) e (calls s ++ cs)))
      as (cs2 & ->).
    fold (longest first limits). rewrite bool_decide_true by lia.
    unfold expire, mret, script_ret. cbn [hash expiry calls].
    rewrite decide_False.
    - exists (cs ++ cs2). by rewrite <-!app_assoc.
    - intros Hempty.
      pose proof (lookup_bump_all_ts (evict_all (hash s) limits now) limits
                    first now weight Hfirst) as Hts.
      rewrite Hempty in Hts. by rewrite lookup_empty in Hts. }
  cbn [snd expiry calls]. split_and!.
  - done.
  - done.
  - destruct Hex as [E|(t & ? & ?)]; [by exists first|by exists t].
  - by rewrite !app_assoc, last_snoc.
Qed.

(** * Further properties of the class *)

Module GuardiniMore.
Import Guardini GuardiniProofs.

Lemma throws_isTokenAllowed_eq this w token ipAddress :
  let key := namespace this +:+ ":rl:" +:+ token in
  let checkKey := namespace this +:+ ":rl:hit:" +:+ token in
  let guest := ipIsAllowed this ipAddress in
  let counter limits := now (λ ts, lua_overLimitCheck checkKey limits ts 1) in
  throws w (isTokenAllowed this token ipAddress)
  = match get_reply w key with
    | Failed e => false
    | Got cached =>
        if truthy cached then
          if bool_decide (default EmptyString cached = "none")
          then throws w guest
          else match getPlanLimits this (default EmptyString cached) with
               | Some limits => throws w (counter limits)
               | None => throws w guest
               end
        else if planProvider this then
          match provider_reply w token with
          | Failed e => false
          | Got plan =>
              throws w
                (if truthy plan then
                   match getPlanLimits this (default EmptyString plan) with
                   | Some limits => counter limits
                   | None => guest
                   end
                 else guest)
          end
        else throws w guest
    end.
Proof.
  intros key checkKey guest counter. subst key checkKey guest counter.
  unfold isTokenAllowed. cbn [throws].
  destruct (get_reply w _) as [e|cached]; [done|].
  destruct (truthy cached).
  - case_bool_decide; [done|]. by destruct (getPlanLimits this _).
  - destruct (planProvider this); cbn [negb]; [|done].
    cbn [throws]. destruct (provider_reply w token) as [e|plan]; [done|].
    destruct (shouldCacheTokens this); cbn [throws]; [|done].
    destruct (set_reply w _ _); cbn [throws]; by rewrite orb_false_r.
Qed.







Lemma guest_is_quiet this w ipAddress :
  Forall (λ r, lookup_or_cache_write r = false)
    (run w (ipIsAllowed this ipAddress)).1.
Proof.
  rewrite run_ipIsAllowed. destruct (allowsGuests this); simpl; [|done].
  destruct (script_load w); [done|]. by apply Forall_singleton.
Qed.

(** X11. With a non-empty value in the plan cache, the plan provider is
    not called and the cache is not written. *)
Theorem cache_hit_skips_lookup this token ipAddress w cached :
  token ≠ EmptyString →
  get_reply w (namespace this +:+ ":rl:" +:+ token) = Got cached →
  truthy cached = true →
  Forall (λ r, lookup_or_cache_write r = false)
    (run w (check this (Some token) ipAddress)).1.
Proof.
  intros Ht Hget Hc. rewrite check_token by done.
  rewrite run_isTokenAllowed. cbn zeta. rewrite Hget, Hc.
  pose proof (guest_is_quiet this w ipAddress) as Hg.
  case_bool_decide; [by constructor|].
  destruct (getPlanLimits this _); cbn [fst].
  - rewrite run_counter. destruct (script_load w); by repeat constructor.
  - by repeat constructor.
Qed.

(** X12. A cached name of a configured plan.  When the script loads, the
    call reads the cache and runs the script once, on the hit key of the
    token with the limits of the plan, the current time and weight 1,
    and the callback gets the verdict of the script.  When the load of the
    script fails, the call reads the cache and ends in an exception:
    no script call is sent and the callback is never called. *)
Theorem cached_plan_runs_token_counter this token ipAddress w plan limits :
  token ≠ EmptyString →
  get_reply w (namespace this +:+ ":rl:" +:+ token) = Got (Some plan) →
  plan ≠ EmptyString → plan ≠ "none" →
  getPlanLimits this plan = Some limits →
  let key := namespace this +:+ ":rl:" +:+ token in
  let checkKey := namespace this +:+ ":rl:hit:" +:+ token in
  (script_load w = None →
     run w (check this (Some token) ipAddress)
     = ([ReqGet key; ReqScript checkKey limits (seconds w) 1],
        [script_verdict (script_reply w checkKey limits (seconds w) 1)])
     ∧ throws w (check this (Some token) ipAddress) = false)
  ∧ (is_Some (script_load w) →
       run w (check this (Some token) ipAddress) = ([ReqGet key], [])
       ∧ throws w (check this (Some token) ipAddress) = true).
Proof.
  intros Ht Hget Hp Hn Hl key checkKey. subst key checkKey.
  rewrite check_token by done.
  rewrite run_isTokenAllowed, throws_isTokenAllowed_eq. cbn zeta.
  rewrite Hget. cbn [truthy]. rewrite bool_decide_true by done.
  change (default EmptyString (Some plan)) with plan.
  rewrite bool_decide_false by done. rewrite Hl.
  rewrite run_counter, throws_counter. split.
  - intros ->. split; [done|]. apply bool_decide_eq_false. by intros [? ?].
  - intros [e ->]. split; [done|]. apply bool_decide_eq_true. by exists e.
Qed.

(** X13. Without a plan provider, a token whose plan is not cached is
    treated as a guest: after the cache read the call is the guest path
    of the address, and nothing is written to the cache. *)
Theorem no_provider_falls_back_to_guest this token ipAddress w cached :
  token ≠ EmptyString →
  get_reply w (namespace this +:+ ":rl:" +:+ token) = Got cached →
  truthy cached = false → planProvider this = false →
  run w (check this (Some token) ipAddress)
  = (ReqGet (namespace this +:+ ":rl:" +:+ token)
       :: (run w (ipIsAllowed this ipAddress)).1,
     (run w (ipIsAllowed this ipAddress)).2).
Proof.
  intros Ht Hget Hc Hp. rewrite check_token by done.
  rewrite run_isTokenAllowed. cbn zeta. by rewrite Hget, Hc, Hp.
Qed.


Lemma cache_write_discipline this w token plan rest :
  Forall (cache_discipline this) rest →
  Forall (cache_discipline this) (cache_write this w token plan rest).
Proof.
  intros Hrest. unfold cache_write.
  destruct (shouldCacheTokens this) eqn:Hs; [|done].
  assert (0 < cacheTtl this).
  { unfold shouldCacheTokens in Hs. apply bool_decide_eq_true in Hs. lia. }
  assert ((if truthy plan then default EmptyString plan else "none")
          ≠ EmptyString).
  { destruct plan as [p|]; simpl; [|done]. case_bool_decide; done. }
  constructor; [done|]. apply Forall_app. split; [done|].
  destruct (set_reply w _ _); by repeat constructor.
Qed.

(** X15. Every [set] that a call sends is sent with caching switched on
    and stores a non-empty value, and every [expire] carries exactly the
    configured time to live, which is positive. *)
Theorem cache_writes_follow_configuration this token ipAddress w :
  Forall (cache_discipline this) (run w (check this token ipAddress)).1.
Proof.
  assert (Forall (cache_discipline this) (run w (ipIsAllowed this ipAddress)).1)
    as Hg.
  { rewrite run_ipIsAllowed. destruct (allowsGuests this); simpl; [|done].
    destruct (script_load w); [done|]. by apply Forall_singleton. }
  assert (∀ key limits,
            Forall (cache_discipline this)
              (run w (now (λ ts, lua_overLimitCheck key limits ts 1))).1)
    as Hcnt.
  { intros key limits. rewrite run_counter.
    destruct (script_load w); [done|]. by apply Forall_singleton. }
  unfold check. destruct (truthy token); simpl.
  2:{ destruct (allowsGuests this); simpl; [done|constructor]. }
  rewrite andb_false_r, run_isTokenAllowed. cbn zeta.
  destruct (get_reply w _) as [e|cached]; [by repeat constructor|].
  destruct (truthy cached).
  - case_bool_decide; [by constructor|].
    destruct (getPlanLimits this _); by repeat constructor.
  - destruct (planProvider this); [|by constructor].
    destruct (provider_reply w _) as [e|plan]; [by repeat constructor|].
    cbn [fst]. do 2 (constructor; [done|]).
    set (rest := if truthy plan
                 then match getPlanLimits this (default EmptyString plan)
                      with
                      | Some limits =>
                          now (λ ts, lua_overLimitCheck
                            (namespace this +:+ ":rl:hit:"
                             +:+ default EmptyString token) limits ts 1)
                      | None => ipIsAllowed this ipAddress
                      end
                 else ipIsAllowed this ipAddress).
    assert (Forall (cache_discipline this) (run w rest).1) as Hrest.
    { subst rest. destruct (truthy plan); [|done].
      by destruct (getPlanLimits this _). }
    destruct (throws w rest); [|by apply cache_write_discipline].
    apply Forall_app. split; [|done].
    destruct (shouldCacheTokens this) eqn:Hs; [|done].
    apply Forall_singleton. split; [done|].
    destruct plan as [p|]; simpl; [|done]. case_bool_decide; done.
Qed.

(** X16. The two kinds of key are not kept apart: the key under which the
    plan of the token ["hit:" + u] is cached is the key of the counter
    record of the token [u].  The counter of [u] is the one that a call
    with a cached configured plan and a script that loads runs. *)
Theorem cache_key_overlaps_counter_key this u ipAddress w w' plan limits :
  u ≠ EmptyString →
  get_reply w' (namespace this +:+ ":rl:" +:+ u) = Got (Some plan) →
  plan ≠ EmptyString → plan ≠ "none" →
  getPlanLimits this plan = Some limits →
  script_load w' = None →
  ∃ key,
    ReqGet key ∈ (run w (check this (Some ("hit:" +:+ u)) ipAddress)).1
    ∧ ReqScript key limits (seconds w') 1
      ∈ (run w' (check this (Some u) ipAddress)).1.
Proof.
  intros Hu Hget Hp Hn Hl Hload.
  exists (namespace this +:+ ":rl:hit:" +:+ u). split.
  - rewrite check_token by (by destruct u).
    rewrite run_isTokenAllowed. cbn zeta.
    assert (namespace this +:+ ":rl:" +:+ "hit:" +:+ u
            = namespace this +:+ ":rl:hit:" +:+ u) as -> by done.
    destruct (get_reply w _) as [e|cached]; [by left|].
    destruct (truthy cached).
    + case_bool_decide; [by left|].
      destruct (getPlanLimits this (default EmptyString cached)); by left.
    + destruct (planProvider this); [|by left].
      destruct (provider_reply w _); by left.
  - rewrite check_token by done.
    rewrite run_isTokenAllowed. cbn zeta. rewrite Hget. cbn [truthy].
    rewrite bool_decide_true by done.
    change (default EmptyString (Some plan)) with plan.
    rewrite bool_decide_false by done.
    rewrite Hl, run_counter, Hload. right. by left.
Qed.

(** ** Against a working Redis *)

Lemma exec_counter provider ms key limits st :
  exec provider ms (now (λ ts, lua_overLimitCheck key limits ts 1)) st
  = ((eval_script ms key limits ((ms + 500) `div` 1000) 1 st).2,
     [script_verdict
        (eval_script ms key limits ((ms + 500) `div` 1000) 1 st).1]).
Proof.
  cbn [exec now lua_overLimitCheck].
  by destruct (eval_script _ _ _ _ _ _) as [[?|?] ?].
Qed.

Lemma exec_guest provider ms this ipAddress st :
  exec provider ms (ipIsAllowed this ipAddress) st
  = if allowsGuests this then
      let key := "rl:hit:" +:+ ipAddress in
      let limits := default [] (opt_plans (opts this) !! "free") in
      ((eval_script ms key limits ((ms + 500) `div` 1000) 1 st).2,
       [script_verdict
          (eval_script ms key limits ((ms + 500) `div` 1000) 1 st).1])
    else (st, [(None, Some true)]).
Proof.
  unfold ipIsAllowed. destruct (allowsGuests this); cbn [negb]; [|done].
  apply exec_counter.
Qed.

(** The script touches no other key than its own. *)
Lemma eval_script_other ms key limits ts weight st key' :
  key' ≠ key →
  (eval_script ms key limits ts weight st).2 !! key' = st !! key'.
Proof.
  intros Hne.
  assert (∀ h old,
            (script_on ms key limits ts weight h old st).2 !! key'
            = st !! key') as Hon.
  { intros h old. unfold script_on.
    destruct (overLimitCheck _ _ _ _ _) as [r s]. simpl.
    case_decide; [by rewrite lookup_delete_ne|by rewrite lookup_insert_ne]. }
  unfold eval_script. destruct (live ms st key) as [[[v|h] old]|]; by auto.
Qed.

(** The reply of the script depends on what its own key holds only. *)
Lemma eval_script_reply_ext ms key limits ts weight st st' :
  st !! key = st' !! key →
  (eval_script ms key limits ts weight st).1
  = (eval_script ms key limits ts weight st').1.
Proof.
  intros H.
  assert (∀ h old,
            (script_on ms key limits ts weight h old st).1
            = (script_on ms key limits ts weight h old st').1) as Hon.
  { intros h old. unfold script_on.
    by destruct (overLimitCheck _ _ _ _ _) as [r s]. }
  unfold eval_script, live. rewrite H.
  destruct (st' !! key) as [[[v|h] [d|]]|]; simpl;
    try case_bool_decide; by auto.
Qed.



(** X18. Guests are counted per address: a guest call from one address
    does not change the verdict of a guest call from another address. *)
Theorem guests_are_counted_per_address provider ms ms' this ip ip' st :
  ip ≠ ip' →
  (exec provider ms' (check this None ip')
     (exec provider ms (check this None ip) st).1).2
  = (exec provider ms' (check this None ip') st).2.
Proof.
  intros Hne. unfold check. cbn [truthy negb andb].
  rewrite andb_true_r.
  destruct (allowsGuests this) eqn:Hg; cbn [negb]; [|done].
  rewrite !exec_guest, Hg. cbn zeta. cbn [fst snd]. do 2 f_equal.
  apply eval_script_reply_ext, eval_script_other.
  intros E. by apply (inj (String.app "rl:hit:")) in E.
Qed.

End GuardiniMore.

(** * Concrete runs of the further properties *)

Lemma blocks_cover_duration_witness :
  0 < precision (Tier 10 3 (Some 4)) ≤ duration (Tier 10 3 (Some 4))
  ∧ 1 ≤ blocks (Tier 10 3 (Some 4))
  ∧ duration (Tier 10 3 (Some 4))
    ≤ blocks (Tier 10 3 (Some 4)) * precision (Tier 10 3 (Some 4))
    < duration (Tier 10 3 (Some 4)) + precision (Tier 10 3 (Some 4)).
Proof.
  apply (blocks_cover_duration (Tier 10 3 (Some 4))).
  apply (bool_decide_unpack _). vm_compute. exact I.
Defined.

Lemma allowed_call_within_threshold_witness :
  (overLimitCheck "k" two_tiers 100 1 fresh).1 = Return 0
  ∧ aggregate (hash (overLimitCheck "k" two_tiers 100 1 fresh).2)
      (Tier 10 3 (Some 5))
    ≤ threshold (Tier 10 3 (Some 5)).
Proof.
  assert ((overLimitCheck "k" two_tiers 100 1 fresh).1 = Return 0) as Hr.
  { vm_compute. reflexivity. }
  split; [exact Hr|].
  refine (allowed_call_within_threshold "k" two_tiers 100 1 fresh
            (Tier 10 3 (Some 5)) _ _ Hr).
  - apply (bool_decide_unpack _). vm_compute. exact I.
  - apply (bool_decide_unpack _). vm_compute. exact I.
Defined.

Lemma non_positive_threshold_denies_witness :
  (overLimitCheck "k" [Tier 10 0 None] 100 1 fresh).1 = Return 1.
Proof.
  refine (non_positive_threshold_denies "k" [Tier 10 0 None] 100 1 fresh
            (Tier 10 0 None) _ _ _ _).
  - apply reach_fresh.
  - apply (bool_decide_unpack _). vm_compute. exact I.
  - simpl. lia.
  - lia.
Defined.

Lemma denied_call_leaves_no_trace_witness :
  (overLimitCheck "k" free_1_2 100 1 used_up).1 = Return 1
  ∧ (overLimitCheck "k" two_tiers 101 1
       (overLimitCheck "k" free_1_2 100 1 used_up).2).1
    = (overLimitCheck "k" two_tiers 101 1 used_up).1.
Proof.
  assert ((overLimitCheck "k" free_1_2 100 1 used_up).1 = Return 1) as Hr.
  { vm_compute. reflexivity. }
  split; [exact Hr|].
  refine (denied_call_leaves_no_trace "k" free_1_2 100 1 used_up
            two_tiers 101 1 Hr _ _).
  - lia.
  - apply (bool_decide_unpack _). vm_compute. exact I.
Defined.

Lemma quota_restored_after_window_witness :
  (overLimitCheck "k" free_1_2 100 1 used_up).1 = Return 1
  ∧ ((overLimitCheck "k" free_1_2 101 1 used_up).1 = Return 0
     ↔ Forall (λ t, 1 ≤ threshold t) free_1_2).
Proof.
  split; [vm_compute; reflexivity|].
  refine (quota_restored_after_window "k" free_1_2 101 1 100 used_up
            _ _ _ _ _).
  - exact (until_call "k" 100 _ free_1_2 100 1
             (until_call "k" 100 _ free_1_2 100 1 (until_fresh "k" 100)
                ltac:(lia)) ltac:(lia)).
  - discriminate.
  - apply (bool_decide_unpack _). vm_compute. exact I.
  - lia.
  - apply (proj1 (Forall_forall _ _)).
    apply (bool_decide_unpack _). vm_compute. exact I.
Defined.

Lemma first_call_on_missing_key_witness :
  (overLimitCheck "k" two_tiers 100 1 fresh).1 = Return 0
  ↔ Forall (λ t, 1 ≤ threshold t) two_tiers.
Proof.
  destruct (first_call_on_missing_key "k" two_tiers 100 1 fresh) as [H _].
  - reflexivity.
  - discriminate.
  - apply (bool_decide_unpack _). vm_compute. exact I.
  - lia.
  - exact H.
Defined.


Lemma allowed_call_sets_expiry_witness :
  ∃ longest_duration,
    expiry (overLimitCheck "k" two_tiers 100 1 fresh).2 = Some longest_duration
    ∧ (∀ t, t ∈ two_tiers → duration t ≤ longest_duration)
    ∧ (∃ t, t ∈ two_tiers ∧ duration t = longest_duration)
    ∧ last (calls (overLimitCheck "k" two_tiers 100 1 fresh).2)
      = Some (EXPIRE "k" longest_duration).
Proof.
  refine (allowed_call_sets_expiry "k" two_tiers 100 1 fresh _ _).
  - apply (bool_decide_unpack _). vm_compute. exact I.
  - vm_compute. reflexivity.
Defined.

Module GuardiniMoreWitnesses.
Import Guardini GuardiniProofs GuardiniMore.

Lemma cache_hit_skips_lookup_witness :
  Forall (λ r, lookup_or_cache_write r = false)
    (run gold_world (check GWhatever (Some "T") "10.0.0.1")).1.
Proof.
  refine (cache_hit_skips_lookup GWhatever "T" "10.0.0.1" gold_world
            (Some "gold") _ _ _).
  - discriminate.
  - reflexivity.
  - reflexivity.
Defined.

Lemma cached_plan_runs_token_counter_witness :
  run whatever_world (check GWhatever (Some "T") "10.0.0.1")
  = ([ReqGet ":rl:T"; ReqScript ":rl:hit:T" [Tier 1 1 None] 1000 1],
     [(None, Some false)])
  ∧ run whatever_unloaded (check GWhatever (Some "T") "10.0.0.1")
    = ([ReqGet ":rl:T"], []).
Proof.
  split.
  - destruct (cached_plan_runs_token_counter GWhatever "T" "10.0.0.1"
                whatever_world "whatever" [Tier 1 1 None]) as [H _].
    + discriminate.
    + reflexivity.
    + discriminate.
    + discriminate.
    + reflexivity.
    + exact (proj1 (H eq_refl)).
  - destruct (cached_plan_runs_token_counter GWhatever "T" "10.0.0.1"
                whatever_unloaded "whatever" [Tier 1 1 None]) as [_ H].
    + discriminate.
    + reflexivity.
    + discriminate.
    + discriminate.
    + reflexivity.
    + exact (proj1 (H (ex_intro _ "ECONNREFUSED" eq_refl))).
Defined.

Lemma no_provider_falls_back_to_guest_witness :
  run none_world (check GFree (Some "T") "10.0.0.1")
  = (ReqGet ":rl:T" :: (run none_world (ipIsAllowed GFree "10.0.0.1")).1,
     (run none_world (ipIsAllowed GFree "10.0.0.1")).2).
Proof.
  refine (no_provider_falls_back_to_guest GFree "T" "10.0.0.1" none_world
            None _ _ _ _).
  - discriminate.
  - reflexivity.
  - reflexivity.
  - reflexivity.
Defined.


Lemma cache_key_overlaps_counter_key_witness :
  ∃ key,
    ReqGet key ∈ (run miss_world (check GWhatever (Some "hit:T") "ip")).1
    ∧ ReqScript key [Tier 1 1 None] 1000 1
      ∈ (run whatever_world (check GWhatever (Some "T") "ip")).1.
Proof.
  refine (cache_key_overlaps_counter_key GWhatever "T" "ip" miss_world
            whatever_world "whatever" [Tier 1 1 None] _ _ _ _ _ _).
  - discriminate.
  - reflexivity.
  - discriminate.
  - discriminate.
  - reflexivity.
  - reflexivity.
Defined.


Lemma guests_are_counted_per_address_witness :
  (exec (λ _, Got None) 1000000 (check GFree None "10.0.0.2")
     (exec (λ _, Got None) 1000000 (check GFree None "10.0.0.1")
        empty_store).1).2
  = (exec (λ _, Got None) 1000000 (check GFree None "10.0.0.2")
       empty_store).2.
Proof.
  refine (guests_are_counted_per_address (λ _, Got None) 1000000 1000000
            GFree "10.0.0.1" "10.0.0.2" empty_store _).
  discriminate.
Defined.

(** The plan key of a token can hold a counter record: the cache read is
    refused, and the caller gets the error. *)
Example plan_key_holds_a_hash :
  let provider := λ _, Got (Some "whatever") in
  let '(st1, cb1) :=
    exec provider 1000000 (check GWhatever (Some "T") "ip") empty_store in
  (exec provider 1000000 (check GWhatever (Some "hit:T") "ip") st1).2
  = [(Some wrong_type, None)].
Proof. vm_compute. reflexivity. Qed.

(** The cached plan is used until its time to live has passed: a provider
    that changes its answer is asked again only then. *)
Example cached_plan_expires :
  let call := check GWhatever (Some "T") "ip" in
  let '(st1, _) := exec (λ _, Got (Some "whatever")) 1000000 call empty_store in
  ((exec (λ _, Got None) 4599999 call st1).1 !! ":rl:T",
   (exec (λ _, Got None) 4600000 call st1).1 !! ":rl:T")
  = (Some (Entry (Plain "whatever") (Some 4600000)),
     Some (Entry (Plain "none") (Some 8200000))).
Proof. vm_compute. reflexivity. Qed.

End GuardiniMoreWitnesses.

